(** * Yard and slot management: the allocation and rearrangement-detection engine

    A shallow embedding of the state-changing functions of the
    [YardSlotWireframe] component (App.jsx): intake ([pollInbound]),
    first-fit lookup ([firstAvailableSlot]), [autoPlace], the manual move
    ([moveSelectedToSlot]), [reorderWithinSlot], [removeFromSlot] (evict),
    [snapshotSignatures] (acknowledge) and the change detector
    ([computeChangedSlots]).

    JS objects used as dictionaries are [gmap string _], the set returned by
    the change detector is a [gset string], arrays are lists (index 0 first),
    and every handler is a function from the state captured at render time to
    the state installed by its [set...] calls. *)

From Stdlib Require Import ZArith Ascii DecimalString DecimalFacts DecimalNat DecimalN.
From stdpp Require Import base option list strings gmap sets relations.

Set Warnings "-clear-no-such-hyp".

Local Open Scope Z_scope.
Local Open Scope nat_scope.

(** ** Strings and identifiers *)

(** JS truthiness of a string: only the empty string is falsy. *)
Definition truthy (s : string) : bool :=
  match s with EmptyString => false | String _ _ => true end.

(** The names every JS object inherits from [Object.prototype]. For such a
    key [obj[k]] and [k in obj] find the inherited member when the object
    has no key [k] of its own, and [obj["__proto__"] = v] sets no key; a
    [gmap] shows nothing of this. The store, the layout and the baseline
    are modelled as [gmap]s, which is what the code does on keys outside
    this list (container identifiers of [randomId] and slot identifiers of
    [buildSlotId] are outside it). *)
Definition object_member (k : string) : bool :=
  bool_decide (k ∈ ["constructor"; "hasOwnProperty"; "isPrototypeOf";
                    "propertyIsEnumerable"; "toLocaleString"; "toString"; "valueOf";
                    "__proto__"; "__defineGetter__"; "__defineSetter__";
                    "__lookupGetter__"; "__lookupSetter__"]).

(** [String(n)] for a non-negative integer. *)
Definition js_String (n : nat) : string := NilZero.string_of_uint (Nat.to_uint n).

(** [s.padStart(n, c)] for a one-character pad. *)
Fixpoint pad_chars (k : nat) (c : ascii) (s : string) : string :=
  match k with O => s | S k' => String c (pad_chars k' c s) end.

Definition padStart (n : nat) (c : ascii) (s : string) : string :=
  pad_chars (n - String.length s) c s.

(** [randomId(prefix)]: [r] stands for [Math.floor(Math.random() * 900000)],
    a number in [0, 900000). *)
Definition randomId (prefix : string) (r : N) : string :=
  prefix +:+ "-" +:+ NilZero.string_of_uint (N.to_uint (r + 100000)).

Definition buildSlotId (zone : string) (r c : nat) : string :=
  zone +:+ "-R" +:+ padStart 2 "0" (js_String r) +:+ "-C" +:+ padStart 2 "0" (js_String c).

(** [arr.join(sep)]. *)
Fixpoint join (sep : string) (l : list string) : string :=
  match l with
  | [] => ""
  | x :: rest =>
      match rest with
      | [] => x
      | _ :: _ => x +:+ sep +:+ join sep rest
      end
  end.

(** [slotSignature(stack)]; [None] is an [undefined] argument
    ([stack || []]). *)
Definition slotSignature (stack : option (list string)) : string :=
  join "|" (default [] stack).

(** The separator of [slotSignature] does not occur in [s]. *)
Fixpoint no_sep (s : string) : bool :=
  match s with
  | EmptyString => true
  | String c s' => negb (Ascii.eqb c "|") && no_sep s'
  end.

(** A container identifier: a non-empty token free of the separator. *)
Definition valid_id (s : string) : bool := truthy s && no_sep s.

(** ** Data model *)

Inductive Status := INBOUND | IN_YARD.

(** The fields of a container record that the engine reads or writes. The
    descriptive attributes drawn at random by [makeContainer] (size, type,
    priority, owner, ...) are never read by the engine and are left out.
    [None] is an absent (or [null]) field. *)
Record Container := mkContainer {
  c_id : option string;
  c_status : option Status;
  c_slotId : option string;
  c_createdAt : option string;
  c_placedAt : option string;
  c_movedAt : option string;
  c_updatedAt : option string;
}.

(** [{ ...undefined }]: the record with no field. *)
Definition no_fields : Container := mkContainer None None None None None None None.

Definition makeContainer (now id : string) : Container :=
  mkContainer (Some id) (Some INBOUND) None (Some now) None None None.

Record Config := mkConfig {
  zones : list string;
  rowsPerZone : nat;
  colsPerZone : nat;
  stackLimit : nat;
}.

Definition DEFAULT_CONFIG : Config :=
  {| zones := ["A"; "B"; "C"]; rowsPerZone := 4; colsPerZone := 6; stackLimit := 2 |}.

(** The React state of the component. *)
Record State := mkState {
  containers : gmap string Container;
  inboundIds : list string;
  layout : gmap string (list string);
  prevSig : gmap string string;
  selectedContainerId : option string;
  selectedSlotId : option string;
}.

(** ** Grid topology *)

Definition allSlots (cfg : Config) : list string :=
  z ← zones cfg;
  r ← seq 1 (rowsPerZone cfg);
  c ← seq 1 (colsPerZone cfg);
  [buildSlotId z r c].

(** [layout[s] || []]. *)
Definition stackOf (l : gmap string (list string)) (s : string) : list string :=
  default [] (l !! s).

(** ** Change detection *)

(** [slotId in layout] and [prevSigMap?.[slotId]] are lookups in the own
    keys: see [object_member] for the keys on which the code also finds an
    inherited member. *)
Definition computeChangedSlots (l : gmap string (list string))
    (prevSigMap : gmap string string) : gset string :=
  let changed :=
    map_fold (λ slotId stack (changed : gset string),
      let sig := slotSignature (Some stack) in
      let prev := default "" (prevSigMap !! slotId) in
      if decide (sig = prev) then changed else {[slotId]} ∪ changed) ∅ l in
  map_fold (λ slotId _ (changed : gset string),
    if decide (is_Some (l !! slotId)) then changed else {[slotId]} ∪ changed)
    changed prevSigMap.

(** [changedSlots]: the memoised value the component derives from its state. *)
Definition changedSlots (st : State) : gset string :=
  computeChangedSlots (layout st) (prevSig st).

(** ** Engine operations *)

Section Engine.
Variable cfg : Config.
(** The value of [nowISO()] during the call. *)
Variable now : string.

Definition set_containers (v : gmap string Container) (st : State) : State :=
  mkState v (inboundIds st) (layout st) (prevSig st)
          (selectedContainerId st) (selectedSlotId st).
Definition set_inboundIds (v : list string) (st : State) : State :=
  mkState (containers st) v (layout st) (prevSig st)
          (selectedContainerId st) (selectedSlotId st).
Definition set_layout (v : gmap string (list string)) (st : State) : State :=
  mkState (containers st) (inboundIds st) v (prevSig st)
          (selectedContainerId st) (selectedSlotId st).
Definition set_prevSig (v : gmap string string) (st : State) : State :=
  mkState (containers st) (inboundIds st) (layout st) v
          (selectedContainerId st) (selectedSlotId st).
Definition setSelectedContainerId (v : option string) (st : State) : State :=
  mkState (containers st) (inboundIds st) (layout st) (prevSig st)
          v (selectedSlotId st).
Definition setSelectedSlotId (v : option string) (st : State) : State :=
  mkState (containers st) (inboundIds st) (layout st) (prevSig st)
          (selectedContainerId st) v.

(** The layout the component starts with: every grid slot present, with
    the stored stack when there is one. *)
Definition normalizeLayout (l : gmap string (list string)) : gmap string (list string) :=
  foldl (λ normalized s, <[s := stackOf l s]> normalized) ∅ (allSlots cfg).

Definition resetAll (st : State) : State :=
  mkState ∅ [] (foldl (λ empty s, <[s := []]> empty) ∅ (allSlots cfg)) ∅ None None.

(** *** Intake *)

(** [let id = randomId("CONT"); while (newContainers[id]) id = randomId("CONT")]
    run on the successive outcomes [draws] of the random source; [None]
    when every outcome in [draws] collides. *)
Fixpoint fresh_id (newContainers : gmap string Container) (draws : list N)
    : option (string * list N) :=
  match draws with
  | [] => None
  | r :: rest =>
      let id := randomId "CONT" r in
      if decide (is_Some (newContainers !! id)) then fresh_id newContainers rest
      else Some (id, rest)
  end.

Fixpoint pollInbound_loop (count : nat) (draws : list N)
    (newContainers : gmap string Container) (newInbound : list string)
    : option (gmap string Container * list string) :=
  match count with
  | O => Some (newContainers, newInbound)
  | S count' =>
      match fresh_id newContainers draws with
      | None => None
      | Some (id, rest) =>
          pollInbound_loop count' rest
            (<[id := makeContainer now id]> newContainers)
            (id :: newInbound) (* unshift: newest first *)
      end
  end.

Definition pollInbound (draws : list N) (count : nat) (st : State) : option State :=
  match pollInbound_loop count draws (containers st) (inboundIds st) with
  | None => None
  | Some (newContainers, newInbound) =>
      Some (set_inboundIds newInbound (set_containers newContainers st))
  end.

(** *** First-fit lookup *)

Definition firstAvailableSlot (l : gmap string (list string)) : option string :=
  find (λ s, bool_decide (length (stackOf l s) < stackLimit cfg)) (allSlots cfg).

(** *** Auto-placement *)

(** [arr.pop()] on a non-empty array: the last element and the rest. *)
Definition pop (l : list string) : option (string * list string) :=
  match last l with
  | None => None
  | Some x => Some (x, removelast l)
  end.

Definition placed_record (c : option Container) (slot : string) : Container :=
  let c := default no_fields c in
  mkContainer (c_id c) (Some IN_YARD) (Some slot) (c_createdAt c)
              (Some now) (c_movedAt c) (c_updatedAt c).

(** The [while] loop of [autoPlace]; [k] is [n - placed]. The slot is
    looked up with [firstAvailableSlot()], which reads the component's
    [layout] ([live]), while the placements go to [newLayout]. *)
Fixpoint autoPlace_loop (live : gmap string (list string)) (k : nat)
    (newLayout : gmap string (list string))
    (newContainers : gmap string Container) (newInbound : list string)
    : gmap string (list string) * gmap string Container * list string :=
  match k with
  | O => (newLayout, newContainers, newInbound)
  | S k' =>
      match pop newInbound with
      | None => (newLayout, newContainers, newInbound)
      | Some (cid, rest) =>
          match firstAvailableSlot live with
          | None => (newLayout, newContainers, newInbound)
          | Some slot =>
              if truthy slot then
                let stack := stackOf newLayout slot ++ [cid] in
                autoPlace_loop live k'
                  (<[slot := stack]> newLayout)
                  (<[cid := placed_record (newContainers !! cid) slot]> newContainers)
                  rest
              else (newLayout, newContainers, newInbound)
          end
      end
  end.

Definition autoPlace (n : nat) (st : State) : State :=
  let '(newLayout, newContainers, newInbound) :=
    autoPlace_loop (layout st) n (layout st) (containers st) (inboundIds st) in
  set_inboundIds newInbound (set_containers newContainers (set_layout newLayout st)).

(** *** Manual move *)

Inductive MoveResult :=
  | NoSelection   (* [if (!selectedContainerId) return] *)
  | SlotFull      (* the [alert] branch *)
  | Moved.

(** [{ ...(newContainers[cid] || { id: cid }), ... }], the lookup being in
    the own keys of the store: see [object_member]. *)
Definition moved_record (c : option Container) (cid targetSlotId : string) : Container :=
  let c := default (mkContainer (Some cid) None None None None None None) c in
  mkContainer (c_id c) (Some IN_YARD) (Some targetSlotId) (c_createdAt c)
              (c_placedAt c) (Some now) (c_updatedAt c).

(** [arr.filter((x) => x !== cid)]. *)
Definition without (cid : string) (l : list string) : list string :=
  filter (λ x, x ≠ cid) l.

Definition moveSelectedToSlot (targetSlotId : string) (st : State) : MoveResult * State :=
  match selectedContainerId st with
  | None => (NoSelection, st)
  | Some cid =>
      if truthy cid then
        (* Remove cid from wherever it is *)
        let newLayout :=
          (λ stack, if bool_decide (cid ∈ stack) then without cid stack else stack)
            <$> layout st in
        (* If it was inbound, remove from inbound list *)
        let newInbound := without cid (inboundIds st) in
        (* Add to target slot if space *)
        let stack := stackOf newLayout targetSlotId in
        if bool_decide (stackLimit cfg ≤ length stack) then (SlotFull, st)
        else
          let newLayout := <[targetSlotId := stack ++ [cid]]> newLayout in
          let newContainers :=
            <[cid := moved_record (containers st !! cid) cid targetSlotId]> (containers st) in
          (Moved, set_containers newContainers
                    (set_inboundIds newInbound (set_layout newLayout st)))
      else (NoSelection, st)
  end.

(** [move(id, targetSlot)]: the container is selected, then the slot is
    clicked. *)
Definition move (cid targetSlotId : string) (st : State) : MoveResult * State :=
  moveSelectedToSlot targetSlotId (setSelectedContainerId (Some cid) st).

(** *** In-slot reordering *)

(** [stack.splice(i, 0, item)]. *)
Definition splice_in (i : nat) (item : string) (stack : list string) : list string :=
  take i stack ++ item :: drop i stack.

(** Indices are integers, possibly negative. *)
Definition reorderWithinSlot (slotId : string) (fromIndex toIndex : Z) (st : State) : State :=
  let stack := stackOf (layout st) slotId in
  if bool_decide (fromIndex < 0 ∨ Z.of_nat (length stack) ≤ fromIndex)%Z then st
  else if bool_decide (toIndex < 0 ∨ Z.of_nat (length stack) ≤ toIndex)%Z then st
  else
    match stack !! Z.to_nat fromIndex with
    | None => st (* not reached: fromIndex is in range *)
    | Some item =>
        let stack := splice_in (Z.to_nat toIndex) item (delete (Z.to_nat fromIndex) stack) in
        set_layout (<[slotId := stack]> (layout st)) st
    end.

(** *** Evict to inbound *)

Definition evicted_record (c : option Container) : Container :=
  let c := default no_fields c in
  mkContainer (c_id c) (Some INBOUND) None (c_createdAt c)
              (c_placedAt c) (c_movedAt c) (Some now).

Definition removeFromSlot (slotId cid : string) (st : State) : State :=
  let newLayout := <[slotId := without cid (stackOf (layout st) slotId)]> (layout st) in
  let newInbound := cid :: without cid (inboundIds st) in
  let newContainers := <[cid := evicted_record (containers st !! cid)]> (containers st) in
  set_containers newContainers (set_inboundIds newInbound (set_layout newLayout st)).

(** *** Acknowledge *)

Definition snapshotSignatures (st : State) : State :=
  let next :=
    foldl (λ next s, <[s := slotSignature (Some (stackOf (layout st) s))]> next)
          ∅ (allSlots cfg) in
  set_prevSig next st.

End Engine.

(** ** The component as a transition system *)

(** The handler runs of the component, with the value of [nowISO()] and
    the outcomes of the random source where the handler uses them. *)
Inductive Event :=
  | Poll (now : string) (draws : list N) (count : nat)
  | AutoPlace (now : string) (n : nat)
  | Select (cid : string)
  | ClickSlot (now targetSlotId : string)
  | Reorder (slotId : string) (fromIndex toIndex : Z)
  | Evict (now slotId cid : string)
  | Acknowledge
  | Reset.

(** One handler run. The guard of the evict step is that of its call site:
    the evict button of a container is rendered inside the slot whose stack
    holds it. *)
Inductive step (cfg : Config) : Event → State → State → Prop :=
  | step_poll now draws count st st' :
      pollInbound now draws count st = Some st' →
      step cfg (Poll now draws count) st st'
  | step_autoPlace now n st :
      step cfg (AutoPlace now n) st (autoPlace cfg now n st)
  | step_select cid st :
      step cfg (Select cid) st (setSelectedContainerId (Some cid) st)
  | step_move now targetSlotId st :
      step cfg (ClickSlot now targetSlotId) st
           (setSelectedSlotId (Some targetSlotId)
              (moveSelectedToSlot cfg now targetSlotId st).2)
  | step_reorder slotId fromIndex toIndex st :
      step cfg (Reorder slotId fromIndex toIndex) st
           (reorderWithinSlot slotId fromIndex toIndex st)
  | step_evict now slotId cid st :
      cid ∈ stackOf (layout st) slotId →
      step cfg (Evict now slotId cid) st (removeFromSlot now slotId cid st)
  | step_acknowledge st :
      step cfg Acknowledge st (snapshotSignatures cfg st)
  | step_reset st :
      step cfg Reset st (resetAll cfg st).

(** Any number of handler runs. *)
Definition steps (cfg : Config) : relation State :=
  rtc (λ st st', ∃ e, step cfg e st st').

(** ** State predicates *)

(** The data-model invariants of the three collections: no identifier
    twice in the inbound queue, twice in a stack or in two stacks, none both
    queued and stacked, and the store holds exactly the identifiers that are
    queued or stacked. *)
Record wf_parts (C : gmap string Container) (I : list string)
    (L : gmap string (list string)) : Prop := mk_wf {
  wf_inbound_nodup : NoDup I;
  wf_stack_nodup : ∀ s, NoDup (stackOf L s);
  wf_one_slot : ∀ c s1 s2, c ∈ stackOf L s1 → c ∈ stackOf L s2 → s1 = s2;
  wf_disjoint : ∀ c s, c ∈ stackOf L s → c ∉ I;
  wf_created : ∀ c, c ∈ dom C ↔ (c ∈ I ∨ (∃ s, c ∈ stackOf L s));
}.

Definition wf (st : State) : Prop :=
  wf_parts (containers st) (inboundIds st) (layout st).


(** Every grid slot, and nothing else, is a key of the layout. *)
Definition grid_layout (cfg : Config) (st : State) : Prop :=
  dom (layout st) = list_to_set (allSlots cfg).

Definition within_capacity (cfg : Config) (st : State) : Prop :=
  ∀ s, length (stackOf (layout st) s) ≤ stackLimit cfg.

(** ** Derived figures *)

(** The KPIs of the header. *)
Definition inboundCount (st : State) : nat := length (inboundIds st).

Definition inYardCount (st : State) : nat :=
  map_fold (λ _ stack acc, acc + length stack) 0 (layout st).

Definition capacity (cfg : Config) : nat := length (allSlots cfg) * stackLimit cfg.

(** [s.startsWith(p)]. *)
Definition startsWith (s p : string) : bool := String.prefix p s.

Record ZoneAvailability := mkZoneAvailability {
  za_zone : string;
  za_remaining : Z;
  za_total : nat;
}.

(** [zoneAvailability]: per zone, the slots whose identifier starts with
    the zone and a dash, the containers they hold and what is left of
    their capacity. *)
Definition zoneAvailability (cfg : Config) (st : State) : list ZoneAvailability :=
  (λ zone,
     let zoneSlots := List.filter (λ slot, startsWith slot (zone +:+ "-")) (allSlots cfg) in
     let used := foldl (λ acc slot, acc + length (stackOf (layout st) slot)) 0 zoneSlots in
     let total := length zoneSlots * stackLimit cfg in
     mkZoneAvailability zone (Z.of_nat total - Z.of_nat used) total) <$> zones cfg.

(** ** Seeding of an empty yard *)

Section Seeding.
Variable cfg : Config.
Variable now : string.

Definition hasData (st : State) : bool :=
  negb (size (containers st) =? 0)
  || negb (length (inboundIds st) =? 0)
  || map_fold (λ _ stack (b : bool), b || negb (length stack =? 0)) false (layout st).

(** The inner [while] of the seeding effect on one slot: containers are
    popped from the queue onto the stack while the stack is below the limit.
    The loop runs at most [stackLimit] times, which is the [fuel] it is
    called with. *)
Fixpoint seed_fill_slot (fuel : nat) (slotId : string)
    (seededLayout : gmap string (list string))
    (seededContainers : gmap string Container) (seededInbound : list string)
    : gmap string (list string) * gmap string Container * list string :=
  match fuel with
  | O => (seededLayout, seededContainers, seededInbound)
  | S fuel' =>
      if bool_decide (length (stackOf seededLayout slotId) < stackLimit cfg) then
        match pop seededInbound with
        | None => (seededLayout, seededContainers, seededInbound)
        | Some (cid, rest) =>
            seed_fill_slot fuel' slotId
              (<[slotId := stackOf seededLayout slotId ++ [cid]]> seededLayout)
              (<[cid := placed_record now (seededContainers !! cid) slotId]> seededContainers)
              rest
        end
      else (seededLayout, seededContainers, seededInbound)
  end.

(** The outer [while]: the slots are visited in grid order until the queue
    is empty. *)
Fixpoint seed_fill (slots : list string)
    (seededLayout : gmap string (list string))
    (seededContainers : gmap string Container) (seededInbound : list string)
    : gmap string (list string) * gmap string Container * list string :=
  match slots with
  | [] => (seededLayout, seededContainers, seededInbound)
  | slotId :: slots' =>
      match seededInbound with
      | [] => (seededLayout, seededContainers, seededInbound)
      | _ :: _ =>
          let '(l, c, i) :=
            seed_fill_slot (stackLimit cfg) slotId
                           seededLayout seededContainers seededInbound in
          seed_fill slots' l c i
      end
  end.

(** The mount effect that seeds twelve containers when the component starts
    without data; [None] when the random outcomes [draws] run out. *)
Definition seed (draws : list N) (st : State) : option State :=
  if hasData st then Some st
  else
    match pollInbound_loop now 12 draws ∅ [] with
    | None => None
    | Some (seededContainers, seededInbound) =>
        let empty := foldl (λ l s, <[s := []]> l) ∅ (allSlots cfg) in
        let '(l, c, i) := seed_fill (allSlots cfg) empty seededContainers seededInbound in
        Some (set_layout l (set_inboundIds i (set_containers c st)))
    end.

End Seeding.

(** ** Container records and locations *)

(** Each record is stored under its own identifier and tells where the
    container is: INBOUND without slot reference when it is queued, IN_YARD
    with the slot that holds it when it is stacked. *)
Definition consistent_parts (C : gmap string Container) (I : list string)
    (L : gmap string (list string)) : Prop :=
  ∀ c rec, C !! c = Some rec →
    c_id rec = Some c
    ∧ (c ∈ I → c_status rec = Some INBOUND ∧ c_slotId rec = None)
    ∧ (∀ s, c ∈ stackOf L s → c_status rec = Some IN_YARD ∧ c_slotId rec = Some s).

Definition records_consistent (st : State) : Prop :=
  consistent_parts (containers st) (inboundIds st) (layout st).

(** The character [m] does not occur in [s]. *)
Fixpoint lacks (m : ascii) (s : string) : bool :=
  match s with
  | EmptyString => true
  | String c s' => negb (Ascii.eqb c m) && lacks m s'
  end.

(** ** Example states *)

(** The state after "Reset local data". *)
Definition fresh_yard : State :=
  resetAll DEFAULT_CONFIG (mkState ∅ [] ∅ ∅ None None).

(** Three arrivals, CONT-100001 first and CONT-100003 last. *)
Definition three_inbound : State :=
  default fresh_yard (pollInbound "t0" [1%N; 2%N; 3%N] 3 fresh_yard).

(** The two oldest arrivals placed. *)
Definition two_placed : State := autoPlace DEFAULT_CONFIG "t1" 2 three_inbound.

(** The oldest arrival sent back to the inbound queue. *)
Definition one_evicted : State := removeFromSlot "t2" "A-R01-C01" "CONT-100001" two_placed.

(** "Poll +5 Containers" on the reset yard, CONT-100001 first. *)
Definition five_inbound : State :=
  default fresh_yard (pollInbound "t0" [1%N; 2%N; 3%N; 4%N; 5%N] 5 fresh_yard).

(** Then "Auto-place (up to 10)". *)
Definition five_placed : State := autoPlace DEFAULT_CONFIG "t1" 10 five_inbound.

(** * Properties *)

(** ** Identifiers and signatures *)

Lemma no_sep_app (a b : string) : no_sep (a +:+ b) = no_sep a && no_sep b.
Proof.
  induction a as [|c a IH]; simpl; [done|].
  rewrite IH. by rewrite andb_assoc.
Qed.

Lemma no_sep_digits (d : Decimal.uint) : no_sep (NilEmpty.string_of_uint d) = true.
Proof. induction d; simpl; auto. Qed.

Lemma no_sep_decimal (d : Decimal.uint) : no_sep (NilZero.string_of_uint d) = true.
Proof. destruct d; try done; apply (no_sep_digits (_ d)). Qed.

(** Every identifier that [randomId] hands out is a valid identifier. *)
Lemma randomId_valid (r : N) : valid_id (randomId "CONT" r) = true.
Proof.
  unfold valid_id, randomId. simpl. apply no_sep_decimal.
Qed.

Lemma truthy_app_l (a b : string) : truthy a = true → truthy (a +:+ b) = true.
Proof. by destruct a. Qed.

(** Slot identifiers are never the empty string. *)
Lemma buildSlotId_truthy (z : string) (r c : nat) : truthy (buildSlotId z r c) = true.
Proof. unfold buildSlotId. by destruct z. Qed.

(** The names of the inherited members have no hyphen, and the identifiers
    of [randomId] and [buildSlotId] have one: the keys that the application
    itself puts into the store, the layout and the baseline are never such
    names. *)
Lemma hyphen_in_app (a b : string) :
  "-"%char ∈ String.list_ascii_of_string (a +:+ String "-" b).
Proof. induction a as [|c a IH]; simpl; [left | by right]. Qed.

Lemma object_member_no_hyphen (k : string) :
  object_member k = true → "-"%char ∉ String.list_ascii_of_string k.
Proof.
  intros Hk. apply bool_decide_eq_true_1 in Hk.
  repeat (apply elem_of_cons in Hk as [-> | Hk];
          [refine (bool_decide_unpack _ _); by vm_compute|]).
  by apply elem_of_nil in Hk.
Qed.

Lemma randomId_not_object_member (prefix : string) (r : N) :
  object_member (randomId prefix r) = false.
Proof.
  destruct (object_member (randomId prefix r)) eqn:Hk; [|done].
  apply object_member_no_hyphen in Hk. destruct Hk. apply hyphen_in_app.
Qed.

Lemma buildSlotId_not_object_member (z : string) (r c : nat) :
  object_member (buildSlotId z r c) = false.
Proof.
  destruct (object_member (buildSlotId z r c)) eqn:Hk; [|done].
  apply object_member_no_hyphen in Hk. destruct Hk. apply hyphen_in_app.
Qed.

(** A separator-free prefix is determined by the string it starts. *)
Lemma sep_split (x y r1 r2 : string) :
  no_sep x = true → no_sep y = true →
  x +:+ String "|" r1 = y +:+ String "|" r2 → x = y ∧ r1 = r2.
Proof.
  revert y. induction x as [|c x IH]; intros [|d y] Hx Hy Heq; simpl in *.
  - by inversion Heq.
  - inversion Heq; subst. by rewrite Ascii.eqb_refl in Hy.
  - inversion Heq; subst. by rewrite Ascii.eqb_refl in Hx.
  - inversion Heq; subst.
    apply andb_true_iff in Hx as [_ Hx]. apply andb_true_iff in Hy as [_ Hy].
    destruct (IH y Hx Hy) as [-> ->]; auto.
Qed.

Lemma no_sep_has_no_sep (x y r : string) : no_sep x = true → x ≠ y +:+ String "|" r.
Proof.
  intros Hx ->. rewrite no_sep_app in Hx. simpl in Hx.
  by rewrite andb_false_r in Hx.
Qed.

Lemma join_cons_cons (sep x y : string) (l : list string) :
  join sep (x :: y :: l) = x +:+ sep +:+ join sep (y :: l).
Proof. done. Qed.

Lemma valid_id_truthy (x : string) : valid_id x = true → truthy x = true.
Proof. unfold valid_id. by intros [? _]%andb_true_iff. Qed.

Lemma valid_id_no_sep (x : string) : valid_id x = true → no_sep x = true.
Proof. unfold valid_id. by intros [_ ?]%andb_true_iff. Qed.

Lemma join_truthy (x : string) (l : list string) :
  truthy x = true → truthy (join "|" (x :: l)) = true.
Proof. destruct l; [done|]. rewrite join_cons_cons. apply truthy_app_l. Qed.

Lemma join_inj (l1 l2 : list string) :
  Forall (λ x, valid_id x = true) l1 → Forall (λ x, valid_id x = true) l2 →
  join "|" l1 = join "|" l2 → l1 = l2.
Proof.
  intros H1. revert l2.
  induction H1 as [|x l1 Hx H1 IH]; intros l2 H2 Heq.
  - destruct H2 as [|y l2 Hy _]; [done|].
    apply valid_id_truthy, (join_truthy _ l2) in Hy.
    rewrite <- Heq in Hy. done.
  - destruct H2 as [|y l2 Hy H2].
    { apply valid_id_truthy, (join_truthy _ l1) in Hx. rewrite Heq in Hx. done. }
    pose proof (valid_id_no_sep _ Hx) as Nx. pose proof (valid_id_no_sep _ Hy) as Ny.
    destruct l1 as [|x' l1], l2 as [|y' l2].
    + simpl in Heq. by subst.
    + rewrite join_cons_cons in Heq. change (join "|" [x]) with x in Heq.
      by apply no_sep_has_no_sep in Heq.
    + rewrite join_cons_cons in Heq. change (join "|" [y]) with y in Heq.
      symmetry in Heq. by apply no_sep_has_no_sep in Heq.
    + rewrite !join_cons_cons in Heq.
      apply sep_split in Heq as [-> Heq]; [|done..].
      f_equal. by apply IH.
Qed.

(** C9. Two stacks of valid container identifiers (non-empty tokens in which
    the separator "|" does not occur, as [randomId] produces them) have the
    same signature exactly when they hold the same identifiers in the same
    order; the signature of the empty stack is the empty string. *)
Theorem slotSignature_injective (s1 s2 : list string) :
  Forall (λ x, valid_id x = true) s1 → Forall (λ x, valid_id x = true) s2 →
  (slotSignature (Some s1) = slotSignature (Some s2) ↔ s1 = s2)
  ∧ slotSignature (Some []) = "".
Proof.
  intros H1 H2. split; [|done]. split.
  - apply join_inj; done.
  - by intros ->.
Qed.

Lemma slotSignature_injective_witness :
  (slotSignature (Some ["CONT-100001"; "CONT-100002"])
     = slotSignature (Some ["CONT-100001"; "CONT-100002"])
   ↔ ["CONT-100001"; "CONT-100002"] = ["CONT-100001"; "CONT-100002"])
  ∧ slotSignature (Some []) = "".
Proof.
  apply (slotSignature_injective ["CONT-100001"; "CONT-100002"]
                                 ["CONT-100001"; "CONT-100002"]);
    repeat constructor.
Defined.

(** ** Stacks and layouts *)

Lemma Some_default {A} (d : A) (o : option A) : is_Some o → o = Some (default d o).
Proof. by intros [x ->]. Qed.

Lemma stackOf_insert (l : gmap string (list string)) (s s' : string) (v : list string) :
  stackOf (<[s := v]> l) s' = if decide (s = s') then v else stackOf l s'.
Proof.
  unfold stackOf. rewrite lookup_insert. by case_decide.
Qed.

Lemma stackOf_fmap (f : list string → list string) (l : gmap string (list string)) (s : string) :
  f [] = [] → stackOf (f <$> l) s = f (stackOf l s).
Proof.
  intros Hf. unfold stackOf. rewrite lookup_fmap. by destruct (l !! s).
Qed.

Lemma elem_of_without (cid x : string) (l : list string) :
  x ∈ without cid l ↔ x ≠ cid ∧ x ∈ l.
Proof. unfold without. by rewrite list_elem_of_filter. Qed.

Lemma without_notin (cid : string) (l : list string) : cid ∉ l → without cid l = l.
Proof.
  induction l as [|x l IH]; [done|]. intros Hn. unfold without in *.
  rewrite filter_cons_True; [|set_solver]. f_equal. apply IH. set_solver.
Qed.

Lemma NoDup_without (cid : string) (l : list string) : NoDup l → NoDup (without cid l).
Proof. apply NoDup_filter. Qed.

(** The removal pass of [moveSelectedToSlot] filters every stack. *)
Lemma removal_pass (cid : string) (stack : list string) :
  (if bool_decide (cid ∈ stack) then without cid stack else stack) = without cid stack.
Proof. case_bool_decide; [done|]. by rewrite without_notin. Qed.

Lemma stackOf_removal_pass (cid : string) (l : gmap string (list string)) (s : string) :
  stackOf ((λ stack, if bool_decide (cid ∈ stack) then without cid stack else stack) <$> l) s
  = without cid (stackOf l s).
Proof. rewrite stackOf_fmap; [apply removal_pass | done]. Qed.

(** ** Manual move *)

(** What [move] does, case by case on the working copy of the target stack. *)
Lemma move_unfold (cfg : Config) (now cid target : string) (st : State) :
  truthy cid = true →
  move cfg now cid target st =
    let w := without cid (stackOf (layout st) target) in
    if bool_decide (stackLimit cfg ≤ length w)
    then (SlotFull, setSelectedContainerId (Some cid) st)
    else (Moved,
          mkState (<[cid := moved_record now (containers st !! cid) cid target]> (containers st))
                  (without cid (inboundIds st))
                  (<[target := w ++ [cid]]>
                     ((λ stack, if bool_decide (cid ∈ stack) then without cid stack else stack)
                        <$> layout st))
                  (prevSig st) (Some cid) (selectedSlotId st)).
Proof.
  intros Ht. unfold move, moveSelectedToSlot. simpl. rewrite Ht.
  rewrite stackOf_removal_pass. by case_bool_decide.
Qed.

(** C8. A reorder request with an index outside [0, |stack|) is a silent
    no-op: [reorderWithinSlot] returns the state it was given, layout and all
    other collections included. *)
Theorem reorder_invalid_index_noop (slotId : string) (fromIndex toIndex : Z) (st : State) :
  (fromIndex < 0 ∨ Z.of_nat (length (stackOf (layout st) slotId)) ≤ fromIndex
   ∨ toIndex < 0 ∨ Z.of_nat (length (stackOf (layout st) slotId)) ≤ toIndex)%Z →
  reorderWithinSlot slotId fromIndex toIndex st = st.
Proof.
  intros H. unfold reorderWithinSlot.
  repeat case_bool_decide; try done. lia.
Qed.

Lemma reorder_invalid_index_noop_witness :
  reorderWithinSlot "A-R01-C01" 0 2 two_placed = two_placed.
Proof.
  apply (reorder_invalid_index_noop "A-R01-C01" 0 2 two_placed).
  vm_compute. right. right. right. discriminate.
Defined.

(** C10, as stated, fails: after "Poll +5 Containers" and "Auto-place (up
    to 10)" the slot A-R01-C01 holds five containers; CONT-100002 is one of
    them, yet moving it to that slot is refused with SlotFull, because the
    stack without it still has four containers, more than the limit. *)
Lemma move_within_slot_counterexample :
  stackOf (layout five_placed) "A-R01-C01"
    = ["CONT-100001"; "CONT-100002"; "CONT-100003"; "CONT-100004"; "CONT-100005"]
  ∧ stackLimit DEFAULT_CONFIG = 2
  ∧ (move DEFAULT_CONFIG "t2" "CONT-100002" "A-R01-C01" five_placed).1 = SlotFull
  ∧ stackOf (layout (move DEFAULT_CONFIG "t2" "CONT-100002" "A-R01-C01" five_placed).2)
            "A-R01-C01"
    = ["CONT-100001"; "CONT-100002"; "CONT-100003"; "CONT-100004"; "CONT-100005"].
Proof. by vm_compute. Qed.

(** C10, amended. When the selected container already sits in the target
    slot, and the stack of that slot holds at most [stackLimit] containers
    (in particular when it is exactly at capacity), the move is not
    refused: the capacity test sees the stack without the container, so the
    move succeeds and the container ends up on top of the same stack, the
    others keeping their order. *)
Theorem move_within_slot_succeeds (cfg : Config) (now cid target : string) (st : State) :
  truthy cid = true →
  cid ∈ stackOf (layout st) target →
  length (stackOf (layout st) target) ≤ stackLimit cfg →
  (move cfg now cid target st).1 = Moved
  ∧ stackOf (layout (move cfg now cid target st).2) target
      = without cid (stackOf (layout st) target) ++ [cid]
  ∧ last (stackOf (layout (move cfg now cid target st).2) target) = Some cid.
Proof.
  intros Ht Hin Hcap. rewrite move_unfold by done. cbv zeta.
  assert (length (without cid (stackOf (layout st) target))
          < length (stackOf (layout st) target)) as Hlt.
  { eapply length_filter_lt; [done|]. by intros []. }
  rewrite bool_decide_eq_false_2 by lia. simpl.
  rewrite stackOf_insert, decide_True by done.
  split_and!; [done..|]. apply last_snoc.
Qed.

Lemma move_within_slot_succeeds_witness :
  (move DEFAULT_CONFIG "t2" "CONT-100001" "A-R01-C01" two_placed).1 = Moved
  ∧ stackOf (layout (move DEFAULT_CONFIG "t2" "CONT-100001" "A-R01-C01" two_placed).2)
            "A-R01-C01"
      = without "CONT-100001" (stackOf (layout two_placed) "A-R01-C01") ++ ["CONT-100001"]
  ∧ last (stackOf (layout (move DEFAULT_CONFIG "t2" "CONT-100001" "A-R01-C01" two_placed).2)
                  "A-R01-C01") = Some "CONT-100001".
Proof.
  apply (move_within_slot_succeeds DEFAULT_CONFIG "t2" "CONT-100001" "A-R01-C01" two_placed).
  - reflexivity.
  - vm_compute. apply list_elem_of_here.
  - vm_compute. lia.
Defined.

(** C3, as stated, fails: the slot A-R01-C01 holds two containers, the
    stack limit, yet moving one of them to that very slot is not refused and
    the layout changes. *)
Lemma move_to_full_slot_counterexample :
  length (stackOf (layout two_placed) "A-R01-C01") = stackLimit DEFAULT_CONFIG
  ∧ (move DEFAULT_CONFIG "t2" "CONT-100001" "A-R01-C01" two_placed).1 = Moved
  ∧ stackOf (layout two_placed) "A-R01-C01" = ["CONT-100001"; "CONT-100002"]
  ∧ stackOf (layout (move DEFAULT_CONFIG "t2" "CONT-100001" "A-R01-C01" two_placed).2)
            "A-R01-C01" = ["CONT-100002"; "CONT-100001"].
Proof. by vm_compute. Qed.

(** C3, amended. Moving a container that is not itself in the target slot
    to a slot whose stack is at (or over) capacity fails with SlotFull and
    leaves the container store, the inbound queue and the layout equal to
    their values before the call. *)
Theorem move_to_full_slot_atomic (cfg : Config) (now cid target : string) (st : State) :
  truthy cid = true →
  cid ∉ stackOf (layout st) target →
  stackLimit cfg ≤ length (stackOf (layout st) target) →
  (move cfg now cid target st).1 = SlotFull
  ∧ containers (move cfg now cid target st).2 = containers st
  ∧ inboundIds (move cfg now cid target st).2 = inboundIds st
  ∧ layout (move cfg now cid target st).2 = layout st.
Proof.
  intros Ht Hnin Hfull. rewrite move_unfold by done. cbv zeta.
  rewrite without_notin by done.
  by rewrite bool_decide_eq_true_2.
Qed.

Lemma move_to_full_slot_atomic_witness :
  (move DEFAULT_CONFIG "t2" "CONT-100003" "A-R01-C01" two_placed).1 = SlotFull
  ∧ containers (move DEFAULT_CONFIG "t2" "CONT-100003" "A-R01-C01" two_placed).2
      = containers two_placed
  ∧ inboundIds (move DEFAULT_CONFIG "t2" "CONT-100003" "A-R01-C01" two_placed).2
      = inboundIds two_placed
  ∧ layout (move DEFAULT_CONFIG "t2" "CONT-100003" "A-R01-C01" two_placed).2
      = layout two_placed.
Proof.
  apply (move_to_full_slot_atomic DEFAULT_CONFIG "t2" "CONT-100003" "A-R01-C01" two_placed).
  - reflexivity.
  - refine (bool_decide_unpack _ _). by vm_compute.
  - vm_compute. lia.
Defined.

(** C4, as stated, fails: CONT-999999 is not in the container store, yet
    moving it to an empty slot succeeds, puts it on that slot's stack and
    creates a store record for it. *)
Lemma move_unknown_container_counterexample :
  containers fresh_yard !! "CONT-999999" = None
  ∧ (move DEFAULT_CONFIG "t2" "CONT-999999" "A-R01-C01" fresh_yard).1 = Moved
  ∧ stackOf (layout fresh_yard) "A-R01-C01" = []
  ∧ stackOf (layout (move DEFAULT_CONFIG "t2" "CONT-999999" "A-R01-C01" fresh_yard).2)
            "A-R01-C01" = ["CONT-999999"]
  ∧ containers (move DEFAULT_CONFIG "t2" "CONT-999999" "A-R01-C01" fresh_yard).2
      !! "CONT-999999"
    = Some (mkContainer (Some "CONT-999999") (Some IN_YARD) (Some "A-R01-C01")
                        None None (Some "t2") None).
Proof. by vm_compute. Qed.

(** C4, amended. A move of a non-empty identifier that is absent from the
    container store, and is not the name of a member that the store object
    inherits ("constructor", "toString", ...), is not reported as an error
    of its own. It is refused with SlotFull, nothing being changed, when
    the target stack (the identifier taken out) is at capacity; otherwise
    it succeeds: the identifier is appended to the target stack, taken out
    of the inbound queue, and a store record is created for it with that
    identifier, status IN_YARD, the target as slot reference and the move
    time. *)
Theorem move_unknown_container (cfg : Config) (now cid target : string) (st : State) :
  truthy cid = true →
  object_member cid = false →
  containers st !! cid = None →
  let w := without cid (stackOf (layout st) target) in
  let r := move cfg now cid target st in
  (stackLimit cfg ≤ length w →
     r.1 = SlotFull ∧ containers r.2 = containers st
     ∧ inboundIds r.2 = inboundIds st ∧ layout r.2 = layout st)
  ∧ (length w < stackLimit cfg →
     r.1 = Moved
     ∧ containers r.2 !! cid
       = Some (mkContainer (Some cid) (Some IN_YARD) (Some target) None None (Some now) None)
     ∧ stackOf (layout r.2) target = w ++ [cid]
     ∧ inboundIds r.2 = without cid (inboundIds st)).
Proof.
  intros Ht _ Hnone w r. subst r. rewrite move_unfold by done. cbv zeta. fold w.
  split; intros Hw.
  - by rewrite bool_decide_eq_true_2.
  - rewrite bool_decide_eq_false_2 by lia. simpl.
    rewrite lookup_insert_eq, stackOf_insert, decide_True, Hnone by done.
    done.
Qed.

Lemma move_unknown_container_witness :
  let w := without "CONT-999999" (stackOf (layout two_placed) "A-R01-C02") in
  let r := move DEFAULT_CONFIG "t2" "CONT-999999" "A-R01-C02" two_placed in
  (stackLimit DEFAULT_CONFIG ≤ length w →
     r.1 = SlotFull ∧ containers r.2 = containers two_placed
     ∧ inboundIds r.2 = inboundIds two_placed ∧ layout r.2 = layout two_placed)
  ∧ (length w < stackLimit DEFAULT_CONFIG →
     r.1 = Moved
     ∧ containers r.2 !! "CONT-999999"
       = Some (mkContainer (Some "CONT-999999") (Some IN_YARD) (Some "A-R01-C02")
                           None None (Some "t2") None)
     ∧ stackOf (layout r.2) "A-R01-C02" = w ++ ["CONT-999999"]
     ∧ inboundIds r.2 = without "CONT-999999" (inboundIds two_placed)).
Proof.
  apply (move_unknown_container DEFAULT_CONFIG "t2" "CONT-999999" "A-R01-C02" two_placed).
  - reflexivity.
  - by vm_compute.
  - by vm_compute.
Defined.

(** ** Change detection and acknowledgement *)

(** The slots reported by the change detector. *)
Lemma elem_of_computeChangedSlots (l : gmap string (list string))
    (prev : gmap string string) (s : string) :
  s ∈ computeChangedSlots l prev ↔
    (∃ stack, l !! s = Some stack
              ∧ slotSignature (Some stack) ≠ default "" (prev !! s))
    ∨ (is_Some (prev !! s) ∧ l !! s = None).
Proof.
  unfold computeChangedSlots.
  set (f1 := λ (slotId : string) (stack : list string) (changed : gset string), _).
  set (f2 := λ (slotId : string) (_ : string) (changed : gset string), _).
  assert (∀ m, ∀ s, s ∈ map_fold f1 ∅ m ↔
            ∃ stack, m !! s = Some stack
                     ∧ slotSignature (Some stack) ≠ default "" (prev !! s)) as H1.
  { apply (map_fold_weak_ind (λ (r : gset string) m, ∀ s, s ∈ r ↔
            ∃ stack, m !! s = Some stack
                     ∧ slotSignature (Some stack) ≠ default "" (prev !! s))).
    - intros s'. rewrite elem_of_empty. split; [done|].
      intros (? & H & _). by rewrite lookup_empty in H.
    - intros i x m r Hi IH s'. unfold f1. cbv zeta.
      destruct (decide (s' = i)) as [->|Hne].
      + rewrite lookup_insert_eq. case_decide as Hd.
        * rewrite IH, Hi. split; [by intros (? & ? & _)|].
          intros (? & [= <-] & Hs). done.
        * rewrite elem_of_union, elem_of_singleton. split; [|auto]. intros _. eauto.
      + rewrite lookup_insert_ne by done.
        case_decide; rewrite <- IH; [done|].
        rewrite elem_of_union, elem_of_singleton. naive_solver. }
  generalize (map_fold f1 ∅ l) (H1 l). clear H1. intros changed Hc.
  apply (map_fold_weak_ind (λ (r : gset string) (m : gmap string string), s ∈ r ↔
            (∃ stack, l !! s = Some stack
                      ∧ slotSignature (Some stack) ≠ default "" (prev !! s))
            ∨ (is_Some (m !! s) ∧ l !! s = None))).
  - rewrite Hc, lookup_empty. split; [auto|]. intros [?|[[] _]]; done.
  - intros i x m r Hi IH. unfold f2.
    destruct (decide (s = i)) as [->|Hne].
    + rewrite lookup_insert_eq. case_decide as Hd.
      * rewrite IH, Hi. destruct Hd as [? Hl]. rewrite Hl.
        split; (intros [?|[? ?]]; [by left | done]).
      * apply eq_None_not_Some in Hd. rewrite Hd.
        rewrite elem_of_union, elem_of_singleton. split; [|auto]. intros _. right. eauto.
    + rewrite lookup_insert_ne by done.
      case_decide; [done|]. rewrite <- IH.
      rewrite elem_of_union, elem_of_singleton. naive_solver.
Qed.

Lemma lookup_foldl_insert {V} (f : string → V) (l : list string) (m : gmap string V) (s : string) :
  foldl (λ next s, <[s := f s]> next) m l !! s
  = if decide (s ∈ l) then Some (f s) else m !! s.
Proof.
  revert m. induction l as [|x l IH]; intros m; cbn [foldl].
  - case_decide as Hd; [by apply elem_of_nil in Hd | done].
  - rewrite IH. destruct (decide (s = x)) as [->|Hne].
    + rewrite (decide_True (P := x ∈ x :: l)) by apply list_elem_of_here.
      case_decide; [done|]. by rewrite lookup_insert_eq.
    + rewrite lookup_insert_ne by done.
      destruct (decide (s ∈ l)) as [Hl|Hl].
      * by rewrite decide_True by (by apply list_elem_of_further).
      * rewrite decide_False; [done|]. by intros [?|?]%elem_of_cons.
Qed.

(** The baseline installed by an acknowledgement: one entry per grid slot,
    the signature of its current stack. *)
Lemma lookup_snapshotSignatures (cfg : Config) (st : State) (s : string) :
  prevSig (snapshotSignatures cfg st) !! s
  = if decide (s ∈ allSlots cfg)
    then Some (slotSignature (Some (stackOf (layout st) s))) else None.
Proof.
  unfold snapshotSignatures. simpl.
  rewrite (lookup_foldl_insert (λ s, slotSignature (Some (stackOf (layout st) s)))).
  by rewrite lookup_empty.
Qed.

Lemma changedSlots_snapshotSignatures (cfg : Config) (st : State) :
  grid_layout cfg st → changedSlots (snapshotSignatures cfg st) = ∅.
Proof.
  intros Hg. apply set_eq. intros s. rewrite elem_of_empty. split; [|done].
  unfold changedSlots. rewrite elem_of_computeChangedSlots.
  rewrite lookup_snapshotSignatures. simpl.
  assert (s ∈ allSlots cfg ↔ is_Some (layout st !! s)) as Hs.
  { rewrite <- elem_of_dom, Hg. by rewrite elem_of_list_to_set. }
  intros [(stack & Hl & Hne)|[Hp Hl]].
  - rewrite decide_True in Hne by (apply Hs; eauto).
    unfold stackOf in Hne. by rewrite Hl in Hne.
  - case_decide as Hd; [|by destruct Hp].
    apply Hs in Hd as [? Hd]. congruence.
Qed.

(** C5. In every state whose layout has exactly the grid slots as keys (the
    layout the component builds at start and keeps), the set of changed
    slots is empty right after an acknowledgement, and again after a second
    acknowledgement; the new baseline holds, for every grid slot, empty ones
    included, the signature of its current stack, and nothing else. *)
Theorem acknowledge_clears_changedSlots (cfg : Config) (st : State) :
  grid_layout cfg st →
  changedSlots (snapshotSignatures cfg st) = ∅
  ∧ changedSlots (snapshotSignatures cfg (snapshotSignatures cfg st)) = ∅
  ∧ (∀ s, prevSig (snapshotSignatures cfg st) !! s
          = if decide (s ∈ allSlots cfg)
            then Some (slotSignature (Some (stackOf (layout st) s))) else None).
Proof.
  intros Hg. split_and!.
  - by apply changedSlots_snapshotSignatures.
  - by apply changedSlots_snapshotSignatures.
  - apply lookup_snapshotSignatures.
Qed.

Lemma acknowledge_clears_changedSlots_witness :
  changedSlots (snapshotSignatures DEFAULT_CONFIG two_placed) = ∅
  ∧ changedSlots (snapshotSignatures DEFAULT_CONFIG
                    (snapshotSignatures DEFAULT_CONFIG two_placed)) = ∅
  ∧ (∀ s, prevSig (snapshotSignatures DEFAULT_CONFIG two_placed) !! s
          = if decide (s ∈ allSlots DEFAULT_CONFIG)
            then Some (slotSignature (Some (stackOf (layout two_placed) s))) else None).
Proof.
  apply (acknowledge_clears_changedSlots DEFAULT_CONFIG two_placed).
  unfold grid_layout. refine (bool_decide_unpack _ _). by vm_compute.
Defined.

(** ** In-slot reordering *)

(** What [reorderWithinSlot] does on two valid indices. *)
Lemma reorder_unfold (slotId : string) (i j : nat) (item : string) (st : State) :
  stackOf (layout st) slotId !! i = Some item →
  j < length (stackOf (layout st) slotId) →
  reorderWithinSlot slotId (Z.of_nat i) (Z.of_nat j) st
  = set_layout (<[slotId := splice_in j item (delete i (stackOf (layout st) slotId))]>
                  (layout st)) st.
Proof.
  intros Hi Hj. pose proof (lookup_lt_Some _ _ _ Hi) as Hlt.
  unfold reorderWithinSlot.
  rewrite !bool_decide_eq_false_2 by lia.
  by rewrite !Nat2Z.id, Hi.
Qed.

Lemma splice_in_lookup (j : nat) (item : string) (l : list string) :
  j ≤ length l → splice_in j item l !! j = Some item.
Proof.
  intros Hj. unfold splice_in.
  rewrite lookup_app_r by (rewrite length_take; lia).
  rewrite length_take. by replace (j - j `min` length l) with 0 by lia.
Qed.

Lemma splice_in_Permutation (j : nat) (item : string) (l : list string) :
  splice_in j item l ≡ₚ item :: l.
Proof.
  unfold splice_in. rewrite <- Permutation_middle. by rewrite take_drop.
Qed.

(** Moving an element of a duplicate-free stack to another position gives a
    different stack with the same elements. *)
Lemma splice_move_changes (i j : nat) (item : string) (l : list string) :
  NoDup l → l !! i = Some item → j < length l → i ≠ j →
  splice_in j item (delete i l) ≠ l ∧ splice_in j item (delete i l) ≡ₚ l.
Proof.
  intros Hnd Hi Hj Hne. pose proof (lookup_lt_Some _ _ _ Hi) as Hlt. split.
  - intros Heq.
    assert (l !! j = Some item) as Hj'.
    { rewrite <- Heq at 1. apply splice_in_lookup. rewrite length_delete by eauto. lia. }
    apply Hne. by eapply NoDup_lookup.
  - rewrite splice_in_Permutation. symmetry. by apply delete_Permutation.
Qed.

(** C7. Take a slot whose stack holds no identifier twice and only valid
    identifiers, acknowledge, then reorder the slot with two different
    in-range indices (so the stack has two or more containers). The stack's
    signature changes, the slot is among the changed slots, and the stack
    is a permutation of what it was. *)
Theorem reorder_signature_sensitive (cfg : Config) (slotId : string)
    (fromIndex toIndex : Z) (st : State) :
  let stack := stackOf (layout st) slotId in
  let st' := reorderWithinSlot slotId fromIndex toIndex (snapshotSignatures cfg st) in
  let stack' := stackOf (layout st') slotId in
  NoDup stack →
  Forall (λ x, valid_id x = true) stack →
  (0 ≤ fromIndex < Z.of_nat (length stack))%Z →
  (0 ≤ toIndex < Z.of_nat (length stack))%Z →
  fromIndex ≠ toIndex →
  2 ≤ length stack
  ∧ slotSignature (Some stack') ≠ slotSignature (Some stack)
  ∧ slotId ∈ changedSlots st'
  ∧ stack' ≡ₚ stack.
Proof.
  intros stack st' stack' Hnd Hvalid Hfrom Hto Hne.
  destruct (Z_of_nat_complete fromIndex) as [i ->]; [lia|].
  destruct (Z_of_nat_complete toIndex) as [j ->]; [lia|].
  destruct (lookup_lt_is_Some_2 stack i) as [item Hitem]; [lia|].
  assert (st' = set_layout
            (<[slotId := splice_in j item (delete i stack)]> (layout st))
            (snapshotSignatures cfg st)) as Hst'.
  { subst st'. rewrite (reorder_unfold _ _ _ item); [done|done|].
    simpl. fold stack. lia. }
  assert (stack' = splice_in j item (delete i stack)) as Hstack'.
  { subst stack'. rewrite Hst'. simpl. by rewrite stackOf_insert, decide_True. }
  destruct (splice_move_changes i j item stack)
    as [Hdiff Hperm]; [done|done|lia|lia|].
  rewrite <- Hstack' in Hdiff, Hperm.
  assert (Forall (λ x, valid_id x = true) stack') as Hvalid'.
  { by rewrite Hperm. }
  assert (slotSignature (Some stack') ≠ slotSignature (Some stack)) as Hsig.
  { intros Heq. apply Hdiff. by apply join_inj. }
  split_and!; [lia|done| |done].
  unfold changedSlots. apply elem_of_computeChangedSlots. left.
  exists stack'. split.
  - rewrite Hst'. simpl. rewrite lookup_insert_eq. by rewrite Hstack'.
  - rewrite Hst'. cbn [prevSig set_layout]. rewrite lookup_snapshotSignatures.
    case_decide; [done|].
    destruct stack' as [|x rest].
    { apply Permutation_length in Hperm. simpl in Hperm. lia. }
    apply Forall_cons_1 in Hvalid' as [Hx _].
    apply valid_id_truthy, (join_truthy _ rest) in Hx.
    change (join "|" (x :: rest) ≠ ""). intros Heq. by rewrite Heq in Hx.
Qed.

Lemma reorder_signature_sensitive_witness :
  let stack := stackOf (layout two_placed) "A-R01-C01" in
  let st' := reorderWithinSlot "A-R01-C01" 0 1 (snapshotSignatures DEFAULT_CONFIG two_placed) in
  let stack' := stackOf (layout st') "A-R01-C01" in
  2 ≤ length stack
  ∧ slotSignature (Some stack') ≠ slotSignature (Some stack)
  ∧ "A-R01-C01" ∈ changedSlots st'
  ∧ stack' ≡ₚ stack.
Proof.
  apply (reorder_signature_sensitive DEFAULT_CONFIG "A-R01-C01" 0 1 two_placed).
  - refine (bool_decide_unpack _ _). by vm_compute.
  - vm_compute. repeat constructor.
  - vm_compute. split; [discriminate | reflexivity].
  - vm_compute. split; [discriminate | reflexivity].
  - discriminate.
Defined.

(** ** Disjointness of the inbound queue and the stacks *)

Lemma stackOf_foldl_empty (l : list string) (s : string) :
  stackOf (foldl (λ empty s, <[s := []]> empty) ∅ l) s = [].
Proof.
  unfold stackOf. rewrite (lookup_foldl_insert (λ _, [])).
  case_decide; [done|]. by rewrite lookup_empty.
Qed.

Lemma wf_resetAll (cfg : Config) (st : State) : wf (resetAll cfg st).
Proof.
  split; simpl; try setoid_rewrite stackOf_foldl_empty.
  - constructor.
  - intros _. constructor.
  - by intros c s1 s2 ?%elem_of_nil.
  - by intros c s ?%elem_of_nil.
  - intros c. rewrite dom_empty_L, elem_of_empty. split; [done|].
    intros [?%elem_of_nil|[s ?%elem_of_nil]]; done.
Qed.

(** A container that joins the queue under a fresh identifier. *)
Lemma wf_arrival (C : gmap string Container) (I : list string)
    (L : gmap string (list string)) (id : string) (c : Container) :
  wf_parts C I L → C !! id = None → wf_parts (<[id := c]> C) (id :: I) L.
Proof.
  intros [Hi Hs Ho Hd Hc] Hnone.
  assert (id ∉ dom C) as Hid by by apply not_elem_of_dom.
  split; try done.
  - apply NoDup_cons. split; [|done]. intros Hin. apply Hid, Hc. auto.
  - intros x s Hx [->|Hin]%elem_of_cons.
    + apply Hid, Hc. eauto.
    + by eapply Hd.
  - intros x. rewrite dom_insert_L, elem_of_union, elem_of_singleton, elem_of_cons, Hc.
    tauto.
Qed.

Lemma fresh_id_None (C : gmap string Container) (draws rest : list N) (id : string) :
  fresh_id C draws = Some (id, rest) → C !! id = None.
Proof.
  induction draws as [|r draws IH]; simpl; [done|].
  case_decide as Hd; [done|]. intros [= <- <-].
  by apply eq_None_not_Some.
Qed.

Lemma wf_pollInbound_loop (now : string) (count : nat) (draws : list N)
    (C C' : gmap string Container) (I I' : list string) (L : gmap string (list string)) :
  wf_parts C I L → pollInbound_loop now count draws C I = Some (C', I') →
  wf_parts C' I' L.
Proof.
  revert draws C I. induction count as [|count IH]; intros draws C I Hwf; simpl.
  - by intros [= <- <-].
  - destruct (fresh_id C draws) as [[id rest]|] eqn:Hf; [|done].
    apply IH. apply wf_arrival; [done|]. by eapply fresh_id_None.
Qed.

Lemma wf_pollInbound (now : string) (draws : list N) (count : nat) (st st' : State) :
  wf st → pollInbound now draws count st = Some st' → wf st'.
Proof.
  unfold pollInbound, wf. intros Hwf.
  destruct (pollInbound_loop _ _ _ _ _) as [[C' I']|] eqn:Hl; [|done].
  intros [= <-]. simpl. by eapply wf_pollInbound_loop.
Qed.

(** A container that leaves wherever it is for the top of the stack of
    [target]: the common shape of a placement and of a move. *)
Lemma wf_relocate (C C' : gmap string Container) (I I' : list string)
    (L L' : gmap string (list string)) (cid target : string) :
  wf_parts C I L →
  dom C' = {[cid]} ∪ dom C →
  I' = without cid I →
  (∀ s, stackOf L' s = if decide (target = s)
                       then without cid (stackOf L target) ++ [cid]
                       else without cid (stackOf L s)) →
  wf_parts C' I' L'.
Proof.
  intros [Hi Hs Ho Hd Hc] HC -> HL.
  assert (∀ x s, x ∈ stackOf L' s ↔
            (x = cid ∧ s = target) ∨ (x ≠ cid ∧ x ∈ stackOf L s)) as Hin.
  { intros x s. rewrite HL. case_decide as Ht.
    - subst s. rewrite elem_of_app, elem_of_without, list_elem_of_singleton.
      naive_solver.
    - rewrite elem_of_without. naive_solver. }
  split.
  - by apply NoDup_without.
  - intros s. rewrite HL. case_decide.
    + apply NoDup_app. split_and!; [by apply NoDup_without| |apply NoDup_singleton].
      intros x [Hx _]%elem_of_without ->%list_elem_of_singleton. done.
    + by apply NoDup_without.
  - intros x s1 s2 [[-> ->]|[Hx H1]]%Hin [[? ->]|[Hx' H2]]%Hin; try done.
    by eapply Ho.
  - intros x s [[-> ->]|[Hx H1]]%Hin [Hx' Hx'']%elem_of_without; [done|].
    by eapply Hd.
  - intros x. rewrite HC, elem_of_union, elem_of_singleton, Hc, elem_of_without.
    setoid_rewrite Hin. destruct (decide (x = cid)) as [->|Hne]; naive_solver.
Qed.

Lemma wf_moveSelectedToSlot (cfg : Config) (now target : string) (st : State) :
  wf st → wf (moveSelectedToSlot cfg now target st).2.
Proof.
  intros Hwf. unfold moveSelectedToSlot.
  destruct (selectedContainerId st) as [cid|]; [|done].
  destruct (truthy cid); [|done].
  case_bool_decide; [done|]. unfold wf. simpl.
  eapply (wf_relocate _ _ _ _ _ _ cid target); [exact Hwf| |done|].
  - apply dom_insert_L.
  - intros s. rewrite stackOf_insert, !stackOf_removal_pass. done.
Qed.

Lemma pop_Some (l rest : list string) (x : string) :
  pop l = Some (x, rest) → l = rest ++ [x].
Proof.
  unfold pop. destruct (last l) as [y|] eqn:Hl; [|done].
  intros [= -> <-]. apply last_Some in Hl as [l' ->].
  by rewrite removelast_last.
Qed.

(** One iteration of the loop of [autoPlace]: the oldest arrival goes on
    top of the stack of [slot]. *)
Lemma wf_placement (C : gmap string Container) (rest : list string)
    (L : gmap string (list string)) (cid slot : string) (c : Container) :
  wf_parts C (rest ++ [cid]) L →
  wf_parts (<[cid := c]> C) rest (<[slot := stackOf L slot ++ [cid]]> L).
Proof.
  intros Hwf. pose proof Hwf as [Hi Hs Ho Hd Hc].
  assert (∀ s, cid ∉ stackOf L s) as Hout.
  { intros s Hin. apply (Hd _ _ Hin). apply elem_of_app. right. apply list_elem_of_here. }
  apply NoDup_app in Hi as (_ & Hi & _).
  eapply (wf_relocate _ _ _ _ _ _ cid slot); [exact Hwf| | |].
  - apply dom_insert_L.
  - unfold without. rewrite filter_app, filter_cons_False, filter_nil, app_nil_r by naive_solver.
    symmetry. apply without_notin. intros Hin. apply (Hi _ Hin), list_elem_of_here.
  - intros s. rewrite stackOf_insert, !without_notin by done. done.
Qed.

Lemma wf_autoPlace_loop (cfg : Config) (now : string) (live : gmap string (list string))
    (k : nat) (L : gmap string (list string)) (C : gmap string Container) (I : list string) :
  wf_parts C I L →
  let '(L', C', I') := autoPlace_loop cfg now live k L C I in wf_parts C' I' L'.
Proof.
  revert L C I. induction k as [|k IH]; intros L C I Hwf; simpl; [done|].
  destruct (pop I) as [[cid rest]|] eqn:Hp; [|done].
  destruct (firstAvailableSlot cfg live) as [slot|]; [|done].
  destruct (truthy slot); [|done].
  apply IH. apply wf_placement. by rewrite <- (pop_Some _ _ _ Hp).
Qed.

Lemma wf_autoPlace (cfg : Config) (now : string) (n : nat) (st : State) :
  wf st → wf (autoPlace cfg now n st).
Proof.
  intros Hwf. unfold autoPlace.
  pose proof (wf_autoPlace_loop cfg now (layout st) n _ _ _ Hwf) as H.
  destruct (autoPlace_loop _ _ _ _ _ _ _) as [[L' C'] I']. done.
Qed.

(** The invariants only see each stack up to the order of its elements. *)
Lemma wf_parts_Permutation (C : gmap string Container) (I : list string)
    (L L' : gmap string (list string)) :
  (∀ s, stackOf L' s ≡ₚ stackOf L s) → wf_parts C I L → wf_parts C I L'.
Proof.
  intros HL [Hi Hs Ho Hd Hc]. split; [done|..].
  - intros s. by rewrite HL.
  - intros c s1 s2. rewrite !HL. apply Ho.
  - intros c s. rewrite HL. apply Hd.
  - intros c. rewrite Hc. by setoid_rewrite HL.
Qed.

Lemma reorderWithinSlot_cases (slotId : string) (fromIndex toIndex : Z) (st : State) :
  reorderWithinSlot slotId fromIndex toIndex st = st
  ∨ ∃ stack, stack ≡ₚ stackOf (layout st) slotId
             ∧ reorderWithinSlot slotId fromIndex toIndex st
               = set_layout (<[slotId := stack]> (layout st)) st.
Proof.
  unfold reorderWithinSlot. repeat (case_bool_decide; [by left|]).
  destruct (_ !! Z.to_nat fromIndex) as [item|] eqn:Hitem; [|by left].
  right. eexists. split; [|done].
  rewrite splice_in_Permutation. symmetry. by apply delete_Permutation.
Qed.

Lemma wf_reorderWithinSlot (slotId : string) (fromIndex toIndex : Z) (st : State) :
  wf st → wf (reorderWithinSlot slotId fromIndex toIndex st).
Proof.
  intros Hwf.
  destruct (reorderWithinSlot_cases slotId fromIndex toIndex st)
    as [->|(stack & Hperm & ->)]; [done|].
  unfold wf. simpl. eapply wf_parts_Permutation; [|exact Hwf].
  intros s. rewrite stackOf_insert. by case_decide; subst.
Qed.

Lemma wf_removeFromSlot (now slotId cid : string) (st : State) :
  wf st → cid ∈ stackOf (layout st) slotId → wf (removeFromSlot now slotId cid st).
Proof.
  intros [Hi Hs Ho Hd Hc] Hcid. unfold wf, removeFromSlot. simpl.
  assert (∀ x s, x ∈ stackOf (<[slotId := without cid (stackOf (layout st) slotId)]>
                               (layout st)) s
                 ↔ x ≠ cid ∧ x ∈ stackOf (layout st) s) as Hin.
  { intros x s. rewrite stackOf_insert. case_decide as Hsl.
    - subst s. apply elem_of_without.
    - split; [|naive_solver]. intros Hx. split; [|done].
      intros ->. apply Hsl. by eapply Ho. }
  split.
  - apply NoDup_cons. split; [|by apply NoDup_without].
    rewrite elem_of_without. naive_solver.
  - intros s. rewrite stackOf_insert. case_decide; [by apply NoDup_without|done].
  - intros x s1 s2 [_ H1]%Hin [_ H2]%Hin. by eapply Ho.
  - intros x s [Hx H1]%Hin [?|[_ H2]%elem_of_without]%elem_of_cons; [done|].
    by eapply Hd.
  - intros x. rewrite dom_insert_L, elem_of_union, elem_of_singleton, Hc, elem_of_cons,
      elem_of_without.
    setoid_rewrite Hin. destruct (decide (x = cid)) as [->|Hne]; naive_solver.
Qed.

Lemma wf_step (cfg : Config) (e : Event) (st st' : State) :
  wf st → step cfg e st st' → wf st'.
Proof.
  intros Hwf Hstep. destruct Hstep.
  - by eapply wf_pollInbound.
  - by apply wf_autoPlace.
  - done.
  - by apply (wf_moveSelectedToSlot cfg now targetSlotId) in Hwf.
  - by apply wf_reorderWithinSlot.
  - by apply wf_removeFromSlot.
  - done.
  - apply wf_resetAll.
Qed.

Lemma wf_steps (cfg : Config) (st st' : State) : wf st → steps cfg st st' → wf st'.
Proof.
  intros Hwf Hsteps. induction Hsteps as [|st1 st2 st3 [e Hstep] _ IH]; [done|].
  apply IH. by eapply wf_step.
Qed.




(** The guard of the evict step matters: asked to evict a container from a
    slot that does not hold it, [removeFromSlot] queues the container and
    leaves it on its stack. *)
Remark removeFromSlot_other_slot :
  let st := removeFromSlot "t2" "A-R01-C02" "CONT-100001" two_placed in
  "CONT-100001" ∈ inboundIds st ∧ "CONT-100001" ∈ stackOf (layout st) "A-R01-C01".
Proof. split; refine (bool_decide_unpack _ _); by vm_compute. Qed.

(** ** Auto-placement and the stack limit *)

Lemma elem_of_allSlots (cfg : Config) (s : string) :
  s ∈ allSlots cfg ↔
    ∃ z r c, z ∈ zones cfg ∧ 1 ≤ r ≤ rowsPerZone cfg ∧ 1 ≤ c ≤ colsPerZone cfg
             ∧ s = buildSlotId z r c.
Proof.
  unfold allSlots. rewrite list_elem_of_bind.
  setoid_rewrite list_elem_of_bind. setoid_rewrite list_elem_of_bind.
  setoid_rewrite list_elem_of_singleton. setoid_rewrite elem_of_seq.
  split.
  - intros (z & (r & (c & -> & Hc) & Hr) & Hz). exists z, r, c. split_and!; [done|lia..|done].
  - intros (z & r & c & Hz & Hr & Hc & ->).
    exists z. split; [|done]. exists r. split; [|lia]. exists c. split; [done|lia].
Qed.

(** The slot that [firstAvailableSlot] returns is a grid slot with room,
    and passes the [if (!slot) break] test. *)
Lemma firstAvailableSlot_Some (cfg : Config) (l : gmap string (list string)) (slot : string) :
  firstAvailableSlot cfg l = Some slot →
  slot ∈ allSlots cfg ∧ length (stackOf l slot) < stackLimit cfg ∧ truthy slot = true.
Proof.
  unfold firstAvailableSlot. intros [Hin Hroom]%find_some.
  apply list_elem_of_In in Hin. apply bool_decide_eq_true in Hroom.
  split_and!; [done..|].
  apply elem_of_allSlots in Hin as (z & r & c & _ & _ & _ & ->).
  apply buildSlotId_truthy.
Qed.

(** What the loop of [autoPlace] computes when no grid slot of the layout it
    was called with has room: nothing is placed. *)
Lemma autoPlace_loop_saturated (cfg : Config) (now : string)
    (live : gmap string (list string)) (k : nat)
    (L : gmap string (list string)) (C : gmap string Container) (I : list string) :
  firstAvailableSlot cfg live = None →
  autoPlace_loop cfg now live k L C I = (L, C, I).
Proof.
  intros Hnone. destruct k as [|k]; simpl; [done|].
  destruct (pop I) as [[cid rest]|]; [|done]. by rewrite Hnone.
Qed.

(** What it computes otherwise: [min k |I|] containers leave the tail of the
    queue, oldest first, and all of them go on the stack of the first slot
    that had room in the layout the call started from. *)
Lemma autoPlace_loop_first_slot (cfg : Config) (now : string)
    (live : gmap string (list string)) (slot : string) (k : nat)
    (L : gmap string (list string)) (C : gmap string Container) (I : list string) :
  firstAvailableSlot cfg live = Some slot →
  let m := k `min` length I in
  let '(L', C', I') := autoPlace_loop cfg now live k L C I in
  I' = take (length I - m) I
  ∧ stackOf L' slot = stackOf L slot ++ reverse (drop (length I - m) I)
  ∧ ∀ s, s ≠ slot → stackOf L' s = stackOf L s.
Proof.
  intros Hslot. destruct (firstAvailableSlot_Some _ _ _ Hslot) as (_ & _ & Htruthy).
  revert L C I.
  induction k as [|k IH]; intros L C I; cbv zeta; cbn [autoPlace_loop].
  - rewrite Nat.min_0_l, Nat.sub_0_r. rewrite take_ge by done. rewrite drop_ge by done.
    by rewrite app_nil_r.
  - destruct (pop I) as [[cid rest]|] eqn:Hp.
    + apply pop_Some in Hp as ->. rewrite Hslot, Htruthy.
      specialize (IH (<[slot := stackOf L slot ++ [cid]]> L)
                     (<[cid := placed_record now (C !! cid) slot]> C) rest).
      cbv zeta in IH.
      destruct (autoPlace_loop _ _ _ _ _ _ _) as [[L' C'] I'].
      destruct IH as (-> & HL & Hother).
      rewrite length_app. cbn [length].
      replace (S k `min` (length rest + 1)) with (S (k `min` length rest)) by lia.
      replace (length rest + 1 - S (k `min` length rest))
        with (length rest - k `min` length rest) by lia.
      split_and!.
      * rewrite take_app_le by lia. done.
      * rewrite HL, stackOf_insert, decide_True by done.
        rewrite drop_app_le by lia. rewrite reverse_app, reverse_singleton.
        by rewrite <- app_assoc.
      * intros s Hs. rewrite Hother, stackOf_insert, decide_False by done. done.
    + assert (I = []) as ->.
      { unfold pop in Hp. destruct (last I) eqn:Hl; [done|]. by apply last_None in Hl. }
      rewrite Nat.min_0_r. by rewrite app_nil_r.
Qed.

(** The layout is as the three calls to [set...] leave it. *)
Lemma autoPlace_first_slot (cfg : Config) (now slot : string) (n : nat) (st : State) :
  firstAvailableSlot cfg (layout st) = Some slot →
  let m := n `min` length (inboundIds st) in
  inboundIds (autoPlace cfg now n st) = take (length (inboundIds st) - m) (inboundIds st)
  ∧ stackOf (layout (autoPlace cfg now n st)) slot
    = stackOf (layout st) slot ++ reverse (drop (length (inboundIds st) - m) (inboundIds st))
  ∧ ∀ s, s ≠ slot → stackOf (layout (autoPlace cfg now n st)) s = stackOf (layout st) s.
Proof.
  intros Hslot. unfold autoPlace.
  pose proof (autoPlace_loop_first_slot cfg now (layout st) slot n
                (layout st) (containers st) (inboundIds st) Hslot) as H.
  destruct (autoPlace_loop _ _ _ _ _ _ _) as [[L' C'] I']. done.
Qed.

(** C1 (the code departs from it). On the reset grid (72 slots, stack limit
    2) with five containers in the queue, [autoPlace 10] places the five of
    them, oldest first, but all on A-R01-C01: the slot lookup reads the
    layout of the render, which the placements of the same call do not
    change. The stack ends with five containers, three more than the limit,
    and A-R01-C02 stays empty. *)
Theorem autoPlace_overfills_first_slot :
  inboundIds five_inbound
    = ["CONT-100005"; "CONT-100004"; "CONT-100003"; "CONT-100002"; "CONT-100001"]
  ∧ map_Forall (λ _ stack, stack = []) (layout five_inbound)
  ∧ inboundIds five_placed = []
  ∧ stackOf (layout five_placed) "A-R01-C01"
    = ["CONT-100001"; "CONT-100002"; "CONT-100003"; "CONT-100004"; "CONT-100005"]
  ∧ stackOf (layout five_placed) "A-R01-C02" = []
  ∧ stackLimit DEFAULT_CONFIG < length (stackOf (layout five_placed) "A-R01-C01").
Proof.
  split_and!.
  - by vm_compute.
  - refine (bool_decide_unpack _ _). by vm_compute.
  - by vm_compute.
  - by vm_compute.
  - by vm_compute.
  - vm_compute. lia.
Qed.

(** ** The stack limit across handler runs *)

Lemma within_capacity_moveSelectedToSlot (cfg : Config) (now target : string) (st : State) :
  within_capacity cfg st → within_capacity cfg (moveSelectedToSlot cfg now target st).2.
Proof.
  intros Hcap. unfold moveSelectedToSlot.
  destruct (selectedContainerId st) as [cid|]; [|done].
  destruct (truthy cid); [|done].
  case_bool_decide as Hfull; [done|]. intros s. simpl.
  rewrite stackOf_insert. case_decide.
  - rewrite length_app. simpl. lia.
  - rewrite stackOf_removal_pass. unfold without.
    etrans; [apply length_filter|apply Hcap].
Qed.

Lemma within_capacity_reorderWithinSlot (cfg : Config) (slotId : string)
    (fromIndex toIndex : Z) (st : State) :
  within_capacity cfg st → within_capacity cfg (reorderWithinSlot slotId fromIndex toIndex st).
Proof.
  intros Hcap.
  destruct (reorderWithinSlot_cases slotId fromIndex toIndex st)
    as [->|(stack & Hperm & ->)]; [done|].
  intros s. simpl. rewrite stackOf_insert. case_decide; [|apply Hcap].
  rewrite Hperm. apply Hcap.
Qed.

Lemma within_capacity_removeFromSlot (cfg : Config) (now slotId cid : string) (st : State) :
  within_capacity cfg st → within_capacity cfg (removeFromSlot now slotId cid st).
Proof.
  intros Hcap s. simpl. rewrite stackOf_insert. case_decide; [|apply Hcap].
  unfold without. etrans; [apply length_filter|apply Hcap].
Qed.

Lemma layout_pollInbound (now : string) (draws : list N) (count : nat) (st st' : State) :
  pollInbound now draws count st = Some st' → layout st' = layout st.
Proof.
  unfold pollInbound. destruct (pollInbound_loop _ _ _ _ _) as [[C' I']|]; [|done].
  by intros [= <-].
Qed.

Lemma within_capacity_resetAll (cfg : Config) (st : State) :
  within_capacity cfg (resetAll cfg st).
Proof.
  intros s. unfold resetAll. cbn [layout]. rewrite stackOf_foldl_empty. simpl. lia.
Qed.

(** Every handler but [autoPlace] keeps the stacks within the limit. *)
Lemma within_capacity_step (cfg : Config) (e : Event) (st st' : State) :
  within_capacity cfg st → step cfg e st st' →
  (∀ now n, e ≠ AutoPlace now n) → within_capacity cfg st'.
Proof.
  intros Hcap Hstep Hnot. destruct Hstep.
  - unfold within_capacity. by erewrite layout_pollInbound.
  - by destruct (Hnot now n).
  - done.
  - by apply (within_capacity_moveSelectedToSlot cfg now targetSlotId) in Hcap.
  - by apply within_capacity_reorderWithinSlot.
  - by apply within_capacity_removeFromSlot.
  - done.
  - apply within_capacity_resetAll.
Qed.

(** C2 (the code departs from it). The reset state satisfies the capacity
    and no-duplicate invariants; "Poll +5 Containers" followed by
    "Auto-place (up to 10)" leads to a state that still has no duplicate
    but in which the stack of A-R01-C01 is longer than the stack limit. *)
Theorem capacity_broken_by_autoPlace :
  wf fresh_yard ∧ within_capacity DEFAULT_CONFIG fresh_yard
  ∧ steps DEFAULT_CONFIG fresh_yard five_placed
  ∧ wf five_placed
  ∧ ¬ within_capacity DEFAULT_CONFIG five_placed.
Proof.
  assert (steps DEFAULT_CONFIG fresh_yard five_placed) as Hrun.
  { eapply rtc_l.
    { exists (Poll "t0" [1%N; 2%N; 3%N; 4%N; 5%N] 5).
      apply (step_poll DEFAULT_CONFIG "t0" [1%N; 2%N; 3%N; 4%N; 5%N] 5
                       fresh_yard five_inbound).
      unfold five_inbound. apply Some_default.
      refine (bool_decide_unpack _ _). by vm_compute. }
    eapply rtc_l; [|apply rtc_refl].
    exists (AutoPlace "t1" 10). apply (step_autoPlace DEFAULT_CONFIG "t1" 10 five_inbound). }
  assert (wf fresh_yard) as Hwf by apply wf_resetAll.
  split_and!; [exact Hwf| |exact Hrun| |].
  - apply within_capacity_resetAll.
  - by eapply wf_steps.
  - intros Hcap. specialize (Hcap "A-R01-C01"). vm_compute in Hcap. lia.
Qed.

(** ** The layout keeps the grid slots as its keys *)

Lemma dom_foldl_insert {V} (f : string → V) (l : list string) :
  dom (foldl (λ next s, <[s := f s]> next) (∅ : gmap string V) l) = list_to_set l.
Proof.
  apply set_eq. intros s.
  rewrite elem_of_dom, (lookup_foldl_insert f), elem_of_list_to_set, lookup_empty.
  case_decide; [by split; eauto|]. split; [by intros []|done].
Qed.

(** The layout the component starts with. *)
Lemma dom_normalizeLayout (cfg : Config) (l : gmap string (list string)) :
  dom (normalizeLayout cfg l) = list_to_set (allSlots cfg).
Proof. apply (dom_foldl_insert (λ s, stackOf l s)). Qed.

Lemma grid_layout_resetAll (cfg : Config) (st : State) : grid_layout cfg (resetAll cfg st).
Proof. apply (dom_foldl_insert (λ _, [])). Qed.

Lemma dom_autoPlace_loop (cfg : Config) (now : string) (live : gmap string (list string))
    (k : nat) (L : gmap string (list string)) (C : gmap string Container) (I : list string) :
  dom L = list_to_set (allSlots cfg) →
  dom (autoPlace_loop cfg now live k L C I).1.1 = list_to_set (allSlots cfg).
Proof.
  revert L C I. induction k as [|k IH]; intros L C I HL; cbn [autoPlace_loop]; [done|].
  destruct (pop I) as [[cid rest]|]; [|done].
  destruct (firstAvailableSlot cfg live) as [slot|] eqn:Hslot; [|done].
  destruct (truthy slot); [|done].
  apply IH. rewrite dom_insert_lookup_L; [done|].
  apply elem_of_dom. rewrite HL, elem_of_list_to_set.
  by eapply firstAvailableSlot_Some.
Qed.

Lemma grid_layout_autoPlace (cfg : Config) (now : string) (n : nat) (st : State) :
  grid_layout cfg st → grid_layout cfg (autoPlace cfg now n st).
Proof.
  intros Hg. unfold grid_layout, autoPlace.
  pose proof (dom_autoPlace_loop cfg now (layout st) n _ (containers st) (inboundIds st) Hg)
    as H.
  by destruct (autoPlace_loop _ _ _ _ _ _ _) as [[L' C'] I'].
Qed.

(** A click on a grid slot. *)
Lemma grid_layout_moveSelectedToSlot (cfg : Config) (now target : string) (st : State) :
  target ∈ allSlots cfg → grid_layout cfg st →
  grid_layout cfg (moveSelectedToSlot cfg now target st).2.
Proof.
  intros Ht Hg. unfold moveSelectedToSlot.
  destruct (selectedContainerId st) as [cid|]; [|done].
  destruct (truthy cid); [|done].
  case_bool_decide; [done|]. unfold grid_layout in *. cbn [snd layout set_containers
    set_inboundIds set_layout].
  rewrite dom_insert_L, dom_fmap_L, Hg. apply set_eq. intros s.
  rewrite elem_of_union, elem_of_singleton, elem_of_list_to_set. naive_solver.
Qed.

Lemma stackOf_nonempty (l : gmap string (list string)) (s : string) :
  stackOf l s ≠ [] → is_Some (l !! s).
Proof. unfold stackOf. destruct (l !! s); [eauto|done]. Qed.

Lemma grid_layout_reorderWithinSlot (cfg : Config) (slotId : string)
    (fromIndex toIndex : Z) (st : State) :
  grid_layout cfg st → grid_layout cfg (reorderWithinSlot slotId fromIndex toIndex st).
Proof.
  intros Hg. unfold reorderWithinSlot.
  repeat (case_bool_decide; [done|]).
  destruct (_ !! Z.to_nat fromIndex) as [item|] eqn:Hitem; [|done].
  unfold grid_layout in *. cbn [layout set_layout].
  rewrite dom_insert_lookup_L; [done|].
  apply stackOf_nonempty. intros Hnil. by rewrite Hnil in Hitem.
Qed.

Lemma grid_layout_removeFromSlot (cfg : Config) (now slotId cid : string) (st : State) :
  cid ∈ stackOf (layout st) slotId →
  grid_layout cfg st → grid_layout cfg (removeFromSlot now slotId cid st).
Proof.
  intros Hcid Hg. unfold grid_layout in *. cbn [removeFromSlot layout set_containers
    set_inboundIds set_layout].
  rewrite dom_insert_lookup_L; [done|].
  apply stackOf_nonempty. intros Hnil. rewrite Hnil in Hcid. by apply elem_of_nil in Hcid.
Qed.

(** Clicks on grid slots, and every other handler run, keep the key set of
    the layout equal to the set of grid slots. *)
Lemma grid_layout_step (cfg : Config) (e : Event) (st st' : State) :
  grid_layout cfg st → step cfg e st st' →
  (∀ now target, e = ClickSlot now target → target ∈ allSlots cfg) →
  grid_layout cfg st'.
Proof.
  intros Hg Hstep Hclick. destruct Hstep.
  - unfold grid_layout. by erewrite layout_pollInbound.
  - by apply grid_layout_autoPlace.
  - done.
  - apply (grid_layout_moveSelectedToSlot cfg now targetSlotId) in Hg; [done|].
    by eapply Hclick.
  - by apply grid_layout_reorderWithinSlot.
  - by apply grid_layout_removeFromSlot.
  - done.
  - apply grid_layout_resetAll.
Qed.

(** ** Scenarios on the default grid *)

(** Three arrivals, then [autoPlace 2]: the two oldest go on A-R01-C01, the
    newest stays in the queue. *)
Example scenario_autoPlace_two :
  stackOf (layout two_placed) "A-R01-C01" = ["CONT-100001"; "CONT-100002"]
  ∧ inboundIds two_placed = ["CONT-100003"].
Proof. by vm_compute. Qed.

(** A move to the full slot A-R01-C01 is refused and the container stays in
    the queue. *)
Example scenario_move_to_full_slot :
  (move DEFAULT_CONFIG "t2" "CONT-100003" "A-R01-C01" two_placed).1 = SlotFull
  ∧ inboundIds (move DEFAULT_CONFIG "t2" "CONT-100003" "A-R01-C01" two_placed).2
    = ["CONT-100003"].
Proof. by vm_compute. Qed.

(** After an acknowledgement, [reorder 0 1] swaps the two containers of
    A-R01-C01 and the slot is the one changed slot; a second acknowledgement
    clears it. *)
Example scenario_reorder_then_acknowledge :
  let st := reorderWithinSlot "A-R01-C01" 0 1 (snapshotSignatures DEFAULT_CONFIG two_placed) in
  stackOf (layout st) "A-R01-C01" = ["CONT-100002"; "CONT-100001"]
  ∧ elements (changedSlots st) = ["A-R01-C01"]
  ∧ elements (changedSlots (snapshotSignatures DEFAULT_CONFIG st)) = [].
Proof. by vm_compute. Qed.

(** * Further properties of the component *)

(** ** Grid topology and identifiers *)

Lemma length_bind_const {A B} (f : A → list B) (k : nat) (l : list A) :
  (∀ x, length (f x) = k) → length (l ≫= f) = length l * k.
Proof.
  intros Hf. induction l as [|x l IH]; [done|].
  rewrite bind_cons, length_app, Hf, IH. simpl. lia.
Qed.

(** X1. The grid has one slot per zone, row and column. *)
Theorem length_allSlots (cfg : Config) :
  length (allSlots cfg) = length (zones cfg) * (rowsPerZone cfg * colsPerZone cfg).
Proof.
  unfold allSlots. apply length_bind_const. intros z.
  rewrite (length_bind_const _ (colsPerZone cfg)); [by rewrite length_seq|].
  intros r. rewrite (length_bind_const _ 1); [rewrite length_seq; lia|done].
Qed.

Lemma string_app_assoc (a b c : string) : (a +:+ b) +:+ c = a +:+ (b +:+ c).
Proof.
  induction a as [|x a IH]; [done|].
  change (String x ((a +:+ b) +:+ c) = String x (a +:+ b +:+ c)). by rewrite IH.
Qed.

Lemma lacks_app (m : ascii) (a b : string) : lacks m (a +:+ b) = lacks m a && lacks m b.
Proof.
  induction a as [|c a IH]; simpl; [done|]. rewrite IH. by rewrite andb_assoc.
Qed.

(** A string is split in one way only at a marker that its tail lacks. *)
Lemma marker_split (m : ascii) (u v a b : string) :
  lacks m a = true → lacks m b = true →
  u +:+ String m a = v +:+ String m b → u = v ∧ a = b.
Proof.
  intros Ha Hb. revert v. induction u as [|c u IH]; intros [|d v] Heq.
  - by inversion Heq.
  - inversion Heq; subst.
    rewrite lacks_app in Ha. simpl in Ha. rewrite Ascii.eqb_refl in Ha.
    by rewrite andb_false_r in Ha.
  - inversion Heq; subst.
    rewrite lacks_app in Hb. simpl in Hb. rewrite Ascii.eqb_refl in Hb.
    by rewrite andb_false_r in Hb.
  - inversion Heq as [[Hc Heq']]. destruct (IH v Heq') as [-> ->]. done.
Qed.

Lemma decimal_lacks (m : ascii) (d : Decimal.uint) :
  (m = "-" ∨ m = "R" ∨ m = "C")%char → lacks m (NilZero.string_of_uint d) = true.
Proof.
  intros Hm.
  assert (lacks m (NilEmpty.string_of_uint d) = true) as H.
  { induction d; simpl; rewrite ?IHd; destruct Hm as [->| [->| ->]]; done. }
  destruct d; try done. by destruct Hm as [->| [->| ->]].
Qed.

Lemma to_uint_normal (n : nat) : Nat.to_uint n = Decimal.unorm (Nat.to_uint n).
Proof.
  rewrite <- (DecimalNat.Unsigned.of_to n) at 1. apply DecimalNat.Unsigned.to_of.
Qed.

Lemma to_uint_nonnil (n : nat) : Nat.to_uint n ≠ Decimal.Nil.
Proof. rewrite to_uint_normal. apply DecimalFacts.unorm_nonnil. Qed.

Lemma js_String_inj (n n' : nat) : js_String n = js_String n' → n = n'.
Proof.
  unfold js_String. intros Heq. apply DecimalNat.Unsigned.to_uint_inj.
  apply (f_equal NilZero.uint_of_string) in Heq.
  rewrite !NilZero.usu in Heq by apply to_uint_nonnil. by inversion Heq.
Qed.

(** [String(n)] has no leading zero: when it starts with "0" it is "0". *)
Lemma js_String_leading_zero (n : nat) (t : string) :
  js_String n = String "0" t → t = "".
Proof.
  unfold js_String. intros Heq.
  destruct (Nat.to_uint n) as [|d| | | | | | | | |] eqn:Hn; try done.
  - by inversion Heq.
  - rewrite to_uint_normal in Hn. unfold Decimal.unorm in Hn.
    destruct (Decimal.nzhead (Nat.to_uint n)) eqn:Hz; try done.
    + inversion Hn; subst. simpl in Heq. by inversion Heq.
    + by apply DecimalFacts.nzhead_nonzero in Hz.
Qed.

Lemma js_String_truthy (n : nat) : truthy (js_String n) = true.
Proof.
  unfold js_String. pose proof (to_uint_nonnil n).
  by destruct (Nat.to_uint n).
Qed.

(** Two-digit padding loses nothing. *)
Lemma pad2_inj (n n' : nat) :
  padStart 2 "0" (js_String n) = padStart 2 "0" (js_String n') → n = n'.
Proof.
  unfold padStart. pose proof (js_String_truthy n) as Hn.
  pose proof (js_String_truthy n') as Hn'.
  destruct (js_String n) as [|a [|b s]] eqn:Es; [done| |];
    destruct (js_String n') as [|a' [|b' s']] eqn:Es'; try done; simpl.
  - intros [= ->]. apply js_String_inj. by rewrite Es, Es'.
  - intros [= <- <- <-]. apply js_String_leading_zero in Es'. done.
  - intros [= -> -> ->]. apply js_String_leading_zero in Es. done.
  - intros Heq. apply js_String_inj. by rewrite Es, Es'.
Qed.

Lemma pad2_lacks (m : ascii) (n : nat) :
  (m = "-" ∨ m = "R" ∨ m = "C")%char → lacks m (padStart 2 "0" (js_String n)) = true.
Proof.
  intros Hm. pose proof (decimal_lacks m (Nat.to_uint n) Hm) as Hd.
  fold (js_String n) in Hd. unfold padStart.
  destruct (js_String n) as [|a [|b s]]; simpl in *; [| |done];
    destruct Hm as [->| [->| ->]]; done.
Qed.

Lemma buildSlotId_eq_inv (z z' : string) (r r' c c' : nat) :
  buildSlotId z r c = buildSlotId z' r' c' → z = z' ∧ r = r' ∧ c = c'.
Proof.
  assert (∀ z r c, buildSlotId z r c
            = (z +:+ "-R" +:+ padStart 2 "0" (js_String r) +:+ "-")
              +:+ String "C" (padStart 2 "0" (js_String c))) as E1.
  { intros. unfold buildSlotId. by rewrite !string_app_assoc. }
  assert (∀ z p, z +:+ "-R" +:+ p +:+ "-" = (z +:+ "-R" +:+ p) +:+ String "-" "") as E2.
  { intros. by rewrite !string_app_assoc. }
  assert (∀ z p, z +:+ "-R" +:+ p = (z +:+ "-") +:+ String "R" p) as E3.
  { intros. by rewrite !string_app_assoc. }
  rewrite !E1. intros Heq.
  apply marker_split in Heq as [Heq Hc]; [|apply pad2_lacks; auto..].
  rewrite !E2 in Heq. apply marker_split in Heq as [Heq _]; [|done..].
  rewrite !E3 in Heq. apply marker_split in Heq as [Heq Hr]; [|apply pad2_lacks; auto..].
  apply (marker_split "-" z z' "" "") in Heq as [Hz _]; [|done..].
  split_and!; [done|by apply pad2_inj..].
Qed.

(** X2. A slot identifier determines its zone, row and column: two slots
    with the same identifier have the same zone, row and column. *)
Theorem buildSlotId_inj (z z' : string) (r r' c c' : nat) :
  buildSlotId z r c = buildSlotId z' r' c' → z = z' ∧ r = r' ∧ c = c'.
Proof. apply buildSlotId_eq_inv. Qed.

Lemma buildSlotId_inj_witness : "A" = "A" ∧ 1 = 1 ∧ 6 = 6.
Proof. apply (buildSlotId_inj "A" "A" 1 1 6 6). reflexivity. Defined.

(** X3. When no zone is listed twice, no slot identifier occurs twice in
    the grid. *)
Theorem NoDup_allSlots (cfg : Config) : NoDup (zones cfg) → NoDup (allSlots cfg).
Proof.
  intros Hz. unfold allSlots. apply NoDup_bind; [| |done].
  - intros z1 z2 s _ _.
    intros (r1 & (c1 & ->%list_elem_of_singleton & _)%list_elem_of_bind & _)%list_elem_of_bind.
    intros (r2 & (c2 & Heq%list_elem_of_singleton & _)%list_elem_of_bind & _)%list_elem_of_bind.
    by apply buildSlotId_eq_inv in Heq as (-> & _).
  - intros z _. apply NoDup_bind; [| |apply NoDup_seq].
    + intros r1 r2 s _ _.
      intros (c1 & ->%list_elem_of_singleton & _)%list_elem_of_bind.
      intros (c2 & Heq%list_elem_of_singleton & _)%list_elem_of_bind.
      by apply buildSlotId_eq_inv in Heq as (_ & -> & _).
    + intros r _. apply NoDup_bind; [| |apply NoDup_seq].
      * intros c1 c2 s _ _ ->%list_elem_of_singleton Heq%list_elem_of_singleton.
        by apply buildSlotId_eq_inv in Heq as (_ & _ & ->).
      * intros c _. apply NoDup_singleton.
Qed.

Lemma NoDup_allSlots_witness : NoDup (allSlots DEFAULT_CONFIG).
Proof.
  apply (NoDup_allSlots DEFAULT_CONFIG).
  refine (bool_decide_unpack _ _). by vm_compute.
Defined.

Lemma string_app_inj_l (p a b : string) : p +:+ a = p +:+ b → a = b.
Proof. induction p as [|c p IH]; simpl; [done|]. intros [= ?]. auto. Qed.

Lemma N_to_uint_nonnil (n : N) : N.to_uint n ≠ Decimal.Nil.
Proof.
  rewrite <- (DecimalN.Unsigned.of_to n), DecimalN.Unsigned.to_of.
  apply DecimalFacts.unorm_nonnil.
Qed.

Lemma randomId_facts (prefix : string) (r r' : N) :
  (randomId prefix r = randomId prefix r' → r = r')
  ∧ truthy (randomId prefix r) = true
  ∧ no_sep (randomId prefix r) = no_sep prefix.
Proof.
  unfold randomId. split_and!.
  - intros Heq%string_app_inj_l%string_app_inj_l.
    apply (f_equal NilZero.uint_of_string) in Heq.
    rewrite !NilZero.usu in Heq by apply N_to_uint_nonnil.
    inversion Heq as [Heq']. apply DecimalN.Unsigned.to_uint_inj in Heq'. lia.
  - by destruct prefix.
  - rewrite !no_sep_app, no_sep_decimal. simpl. by rewrite andb_true_r.
Qed.

(** X4. Different outcomes of the random source give different identifiers,
    and every identifier is the prefix, a dash and decimal digits: it is
    non-empty and free of the signature separator when the prefix is. *)
Theorem randomId_inj (prefix : string) (r r' : N) :
  (randomId prefix r = randomId prefix r' → r = r')
  ∧ truthy (randomId prefix r) = true
  ∧ no_sep (randomId prefix r) = no_sep prefix.
Proof. apply randomId_facts. Qed.

(** ** Intake *)

Lemma fresh_id_valid (C : gmap string Container) (draws rest : list N) (id : string) :
  fresh_id C draws = Some (id, rest) → valid_id id = true.
Proof.
  induction draws as [|r draws IH]; simpl; [done|].
  case_decide; [done|]. intros [= <- <-]. apply randomId_valid.
Qed.

Lemma pollInbound_loop_spec (now : string) (count : nat) (draws : list N)
    (C C' : gmap string Container) (I I' : list string) :
  pollInbound_loop now count draws C I = Some (C', I') →
  ∃ new, I' = new ++ I ∧ length new = count ∧ NoDup new
    ∧ (∀ id, id ∈ new →
         valid_id id = true ∧ C !! id = None ∧ C' !! id = Some (makeContainer now id))
    ∧ (∀ c, c ∉ new → C' !! c = C !! c).
Proof.
  revert draws C I. induction count as [|count IH]; intros draws C I; simpl.
  - intros [= <- <-]. exists []. split_and!; [done|done|constructor| |done].
    by intros id ?%elem_of_nil.
  - destruct (fresh_id C draws) as [[id rest]|] eqn:Hf; [|done].
    intros (new & -> & Hlen & Hnd & Hnew & Hold)%IH.
    pose proof (fresh_id_None _ _ _ _ Hf) as Hid.
    pose proof (fresh_id_valid _ _ _ _ Hf) as Hvalid.
    assert (id ∉ new) as Hnotin.
    { intros Hin. destruct (Hnew _ Hin) as (_ & Hn & _). by rewrite lookup_insert_eq in Hn. }
    exists (new ++ [id]). split_and!.
    + by rewrite <- app_assoc.
    + rewrite length_app. simpl. lia.
    + apply NoDup_app. split_and!; [done| |apply NoDup_singleton].
      by intros x Hx ->%list_elem_of_singleton.
    + intros x [Hx| ->%list_elem_of_singleton]%elem_of_app.
      * destruct (Hnew _ Hx) as (Hv & Hn & Hs). split_and!; [done| |done].
        apply lookup_insert_None in Hn. tauto.
      * split_and!; [done..|]. rewrite Hold by done. apply lookup_insert_eq.
    + intros c Hc. apply not_elem_of_app in Hc as [Hc Hne].
      rewrite Hold by done. apply lookup_insert_ne.
      intros ->. apply Hne, list_elem_of_here.
Qed.

(** X5. A poll that returns puts exactly [count] new identifiers in front of
    the queue. They are pairwise different, valid, absent from the store
    before the call and recorded as fresh INBOUND containers after it; the
    other records, the layout and the baseline are untouched. *)
Theorem pollInbound_spec (now : string) (draws : list N) (count : nat) (st st' : State) :
  pollInbound now draws count st = Some st' →
  ∃ new, inboundIds st' = new ++ inboundIds st
    ∧ length new = count ∧ NoDup new
    ∧ (∀ id, id ∈ new →
         valid_id id = true ∧ containers st !! id = None
         ∧ containers st' !! id = Some (makeContainer now id))
    ∧ (∀ c, c ∉ new → containers st' !! c = containers st !! c)
    ∧ layout st' = layout st ∧ prevSig st' = prevSig st.
Proof.
  unfold pollInbound.
  destruct (pollInbound_loop _ _ _ _ _) as [[C' I']|] eqn:Hl; [|done].
  intros [= <-]. apply pollInbound_loop_spec in Hl as (new & -> & H).
  exists new. simpl. destruct H as (? & ? & ? & ?). done.
Qed.

Lemma pollInbound_spec_witness :
  ∃ new, inboundIds three_inbound = new ++ inboundIds fresh_yard
    ∧ length new = 3 ∧ NoDup new
    ∧ (∀ id, id ∈ new →
         valid_id id = true ∧ containers fresh_yard !! id = None
         ∧ containers three_inbound !! id = Some (makeContainer "t0" id))
    ∧ (∀ c, c ∉ new → containers three_inbound !! c = containers fresh_yard !! c)
    ∧ layout three_inbound = layout fresh_yard ∧ prevSig three_inbound = prevSig fresh_yard.
Proof.
  apply (pollInbound_spec "t0" [1%N; 2%N; 3%N] 3 fresh_yard three_inbound).
  unfold three_inbound. apply Some_default.
  refine (bool_decide_unpack _ _). by vm_compute.
Defined.

Lemma pollInbound_loop_succeeds (now : string) (count : nat) (draws : list N)
    (C : gmap string Container) (I : list string) :
  NoDup draws → (∀ r, r ∈ draws → C !! randomId "CONT" r = None) →
  count ≤ length draws →
  ∃ C', pollInbound_loop now count draws C I
        = Some (C', reverse (randomId "CONT" <$> take count draws) ++ I).
Proof.
  revert draws C I. induction count as [|count IH]; intros draws C I Hnd Hfresh Hlen.
  - exists C. by rewrite take_0.
  - destruct draws as [|r draws]; [simpl in Hlen; lia|].
    apply NoDup_cons in Hnd as [Hr Hnd]. cbn [pollInbound_loop fresh_id].
    rewrite decide_False.
    2: { intros [? Hs]. rewrite Hfresh in Hs by apply list_elem_of_here. done. }
    destruct (IH draws (<[randomId "CONT" r := makeContainer now (randomId "CONT" r)]> C)
                 (randomId "CONT" r :: I)) as [C' HC']; [done| |simpl in Hlen; lia|].
    { intros r' Hr'. rewrite lookup_insert_ne; [apply Hfresh; by apply list_elem_of_further|].
      intros Heq%randomId_facts. by subst. }
    exists C'. rewrite HC'. f_equal. f_equal.
    rewrite firstn_cons, fmap_cons, reverse_cons, <- app_assoc. done.
Qed.

(** X6. When the random outcomes are pairwise different and none of their
    identifiers is in the store, a poll of [count] containers needs only the
    first [count] outcomes: it returns, and the new queue is their
    identifiers, last drawn first, in front of the old queue. *)
Theorem pollInbound_succeeds (now : string) (draws : list N) (count : nat) (st : State) :
  NoDup draws → (∀ r, r ∈ draws → containers st !! randomId "CONT" r = None) →
  count ≤ length draws →
  ∃ st', pollInbound now draws count st = Some st'
         ∧ inboundIds st' = reverse (randomId "CONT" <$> take count draws) ++ inboundIds st.
Proof.
  intros Hnd Hfresh Hlen. unfold pollInbound.
  destruct (pollInbound_loop_succeeds now count draws (containers st) (inboundIds st))
    as [C' ->]; [done..|].
  eexists. split; [done|]. done.
Qed.

Lemma pollInbound_succeeds_witness :
  ∃ st', pollInbound "t0" [1%N; 2%N; 3%N] 2 fresh_yard = Some st'
         ∧ inboundIds st'
           = reverse (randomId "CONT" <$> take 2 [1%N; 2%N; 3%N]) ++ inboundIds fresh_yard.
Proof.
  apply (pollInbound_succeeds "t0" [1%N; 2%N; 3%N] 2 fresh_yard).
  - refine (bool_decide_unpack _ _). by vm_compute.
  - intros r _. apply lookup_empty.
  - simpl. lia.
Defined.

(** ** First-fit lookup *)

Lemma find_first {A} (f : A → bool) (l : list A) (x : A) :
  find f l = Some x →
  ∃ pre post, l = pre ++ x :: post ∧ Forall (λ y, f y = false) pre ∧ f x = true.
Proof.
  induction l as [|y l IH]; simpl; [done|].
  destruct (f y) eqn:Hy.
  - intros [= ->]. exists [], l. by split_and!.
  - intros (pre & post & -> & Hpre & Hx)%IH.
    exists (y :: pre), post. split_and!; [done| |done]. by constructor.
Qed.

(** X7. [firstAvailableSlot] is first-fit: the slot it returns has room and
    every grid slot before it, in grid order, is at or over the limit. *)
Theorem firstAvailableSlot_first_fit (cfg : Config) (l : gmap string (list string))
    (slot : string) :
  firstAvailableSlot cfg l = Some slot →
  ∃ pre post, allSlots cfg = pre ++ slot :: post
    ∧ Forall (λ s, stackLimit cfg ≤ length (stackOf l s)) pre
    ∧ length (stackOf l slot) < stackLimit cfg.
Proof.
  unfold firstAvailableSlot. intros (pre & post & Hl & Hpre & Hx)%find_first.
  exists pre, post. split_and!; [done| |by apply bool_decide_eq_true in Hx].
  eapply Forall_impl; [exact Hpre|]. intros s Hs. cbv beta in Hs.
  apply bool_decide_eq_false in Hs. lia.
Qed.

Lemma firstAvailableSlot_first_fit_witness :
  ∃ pre post, allSlots DEFAULT_CONFIG = pre ++ "A-R01-C02" :: post
    ∧ Forall (λ s, stackLimit DEFAULT_CONFIG ≤ length (stackOf (layout two_placed) s)) pre
    ∧ length (stackOf (layout two_placed) "A-R01-C02") < stackLimit DEFAULT_CONFIG.
Proof.
  apply (firstAvailableSlot_first_fit DEFAULT_CONFIG (layout two_placed) "A-R01-C02").
  by vm_compute.
Defined.

(** X8. [firstAvailableSlot] returns nothing exactly when every grid slot
    is at or over the limit. *)
Theorem firstAvailableSlot_None (cfg : Config) (l : gmap string (list string)) :
  firstAvailableSlot cfg l = None ↔
  ∀ s, s ∈ allSlots cfg → stackLimit cfg ≤ length (stackOf l s).
Proof.
  unfold firstAvailableSlot. split.
  - intros Hnone s Hs. apply list_elem_of_In in Hs.
    pose proof (find_none _ _ Hnone s Hs) as Hf. cbv beta in Hf.
    apply bool_decide_eq_false in Hf. lia.
  - intros Hfull. destruct (find _ _) as [s|] eqn:Hf; [|done].
    apply find_some in Hf as [Hin Hroom]. apply list_elem_of_In in Hin.
    apply bool_decide_eq_true in Hroom. specialize (Hfull s Hin). lia.
Qed.

(** ** Auto-placement, continued *)

(** X9. Whenever a grid slot had room at call time, [autoPlace n] takes
    [min n |queue|] containers from the tail of the queue and puts them
    all, oldest first, on the first such slot; the other stacks are
    untouched. *)
Theorem autoPlace_places_on_first_slot (cfg : Config) (now slot : string) (n : nat)
    (st : State) :
  firstAvailableSlot cfg (layout st) = Some slot →
  let m := n `min` length (inboundIds st) in
  inboundIds (autoPlace cfg now n st) = take (length (inboundIds st) - m) (inboundIds st)
  ∧ stackOf (layout (autoPlace cfg now n st)) slot
    = stackOf (layout st) slot ++ reverse (drop (length (inboundIds st) - m) (inboundIds st))
  ∧ ∀ s, s ≠ slot → stackOf (layout (autoPlace cfg now n st)) s = stackOf (layout st) s.
Proof. apply autoPlace_first_slot. Qed.

Lemma autoPlace_places_on_first_slot_witness :
  let m := 2 `min` length (inboundIds three_inbound) in
  inboundIds (autoPlace DEFAULT_CONFIG "t1" 2 three_inbound)
    = take (length (inboundIds three_inbound) - m) (inboundIds three_inbound)
  ∧ stackOf (layout (autoPlace DEFAULT_CONFIG "t1" 2 three_inbound)) "A-R01-C01"
    = stackOf (layout three_inbound) "A-R01-C01"
      ++ reverse (drop (length (inboundIds three_inbound) - m) (inboundIds three_inbound))
  ∧ ∀ s, s ≠ "A-R01-C01" →
         stackOf (layout (autoPlace DEFAULT_CONFIG "t1" 2 three_inbound)) s
         = stackOf (layout three_inbound) s.
Proof.
  apply (autoPlace_places_on_first_slot DEFAULT_CONFIG "t1" "A-R01-C01" 2 three_inbound).
  by vm_compute.
Defined.

Lemma set_fields_id (st : State) :
  set_inboundIds (inboundIds st) (set_containers (containers st) (set_layout (layout st) st))
  = st.
Proof. by destruct st. Qed.

Lemma autoPlace_unchanged (cfg : Config) (now : string) (n : nat) (st : State) :
  n = 0 ∨ inboundIds st = [] ∨ firstAvailableSlot cfg (layout st) = None →
  autoPlace cfg now n st = st.
Proof.
  intros H. unfold autoPlace.
  assert (autoPlace_loop cfg now (layout st) n (layout st) (containers st) (inboundIds st)
          = (layout st, containers st, inboundIds st)) as ->.
  { destruct H as [-> | [Hq | Hfull]]; [done| |by apply autoPlace_loop_saturated].
    rewrite Hq. by destruct n. }
  apply set_fields_id.
Qed.

(** X10. [autoPlace] changes nothing when it is asked for zero placements,
    when the queue is empty or when no grid slot has room. *)
Theorem autoPlace_noop (cfg : Config) (now : string) (n : nat) (st : State) :
  n = 0 ∨ inboundIds st = [] ∨ firstAvailableSlot cfg (layout st) = None →
  autoPlace cfg now n st = st.
Proof. apply autoPlace_unchanged. Qed.

Lemma autoPlace_noop_witness : autoPlace DEFAULT_CONFIG "t1" 10 fresh_yard = fresh_yard.
Proof.
  apply (autoPlace_noop DEFAULT_CONFIG "t1" 10 fresh_yard).
  right. left. reflexivity.
Defined.

(** X11. [autoPlace] keeps every stack within the limit when the first slot
    with room can take all the [min n |queue|] containers of the call; this
    is always so for [n = 1]. *)
Theorem autoPlace_within_capacity (cfg : Config) (now : string) (n : nat) (st : State) :
  within_capacity cfg st →
  (∀ slot, firstAvailableSlot cfg (layout st) = Some slot →
           length (stackOf (layout st) slot) + n `min` length (inboundIds st)
           ≤ stackLimit cfg) →
  within_capacity cfg (autoPlace cfg now n st)
  ∧ within_capacity cfg (autoPlace cfg now 1 st).
Proof.
  intros Hcap Hroom.
  assert (∀ k, (∀ slot, firstAvailableSlot cfg (layout st) = Some slot →
                  length (stackOf (layout st) slot) + k `min` length (inboundIds st)
                  ≤ stackLimit cfg) →
               within_capacity cfg (autoPlace cfg now k st)) as Hgen.
  { intros k Hk. destruct (firstAvailableSlot cfg (layout st)) as [slot|] eqn:Hslot.
    - destruct (autoPlace_first_slot cfg now slot k st Hslot) as (_ & Hs & Hother).
      intros s. destruct (decide (s = slot)) as [->|Hne].
      + rewrite Hs, length_app, length_reverse, length_drop.
        specialize (Hk slot eq_refl). lia.
      + rewrite Hother by done. apply Hcap.
    - rewrite autoPlace_unchanged by auto. done. }
  split; [by apply Hgen|]. apply Hgen. intros slot Hslot.
  apply firstAvailableSlot_Some in Hslot as (_ & Hlt & _). lia.
Qed.

Lemma autoPlace_within_capacity_witness :
  within_capacity DEFAULT_CONFIG (autoPlace DEFAULT_CONFIG "t1" 2 three_inbound)
  ∧ within_capacity DEFAULT_CONFIG (autoPlace DEFAULT_CONFIG "t1" 1 three_inbound).
Proof.
  apply (autoPlace_within_capacity DEFAULT_CONFIG "t1" 2 three_inbound).
  - intros s. erewrite (layout_pollInbound "t0" [1%N; 2%N; 3%N] 3 fresh_yard three_inbound).
    + apply within_capacity_resetAll.
    + unfold three_inbound. apply Some_default.
      refine (bool_decide_unpack _ _). by vm_compute.
  - intros slot Hslot.
    assert (firstAvailableSlot DEFAULT_CONFIG (layout three_inbound) = Some "A-R01-C01")
      as Hfirst by by vm_compute.
    rewrite Hfirst in Hslot. injection Hslot as <-. vm_compute. lia.
Defined.

(** ** Manual move, continued *)

(** X12. A click on a slot changes the state only when the move goes
    through. It reports no selection exactly when nothing, or the empty
    string, is selected; with a selected container it reports a full slot
    exactly when the target stack, the container taken out, is at or over
    the limit. *)
Theorem moveSelectedToSlot_outcomes (cfg : Config) (now target : string) (st : State) :
  let r := moveSelectedToSlot cfg now target st in
  (r.1 ≠ Moved → r.2 = st)
  ∧ (r.1 = NoSelection ↔
       selectedContainerId st = None ∨ selectedContainerId st = Some "")
  ∧ (∀ cid, selectedContainerId st = Some cid → truthy cid = true →
       (r.1 = SlotFull ↔
          stackLimit cfg ≤ length (without cid (stackOf (layout st) target)))).
Proof.
  unfold moveSelectedToSlot.
  destruct (selectedContainerId st) as [cid|] eqn:Hsel; cbv zeta.
  - destruct cid as [|a cid'] eqn:Hcid; cbn [truthy].
    + cbn [fst snd]. split_and!; [done|naive_solver|]. by intros ? [= <-] ?.
    + rewrite stackOf_removal_pass. case_bool_decide as Hfull; cbn [fst snd].
      * split_and!; [done|naive_solver|]. by intros ? [= <-] _.
      * split_and!; [done|naive_solver|]. intros ? [= <-] _. split; [done|]. intros. done.
  - cbn [fst snd]. split_and!; [done|naive_solver|done].
Qed.

(** X13. A move that goes through takes the container out of the queue and
    out of every stack, puts it on top of the target stack, and records it
    as IN_YARD in the target slot with the move time, keeping the other
    fields of an existing record; the other records and the baseline are
    untouched. *)
Theorem move_Moved (cfg : Config) (now cid target : string) (st : State) :
  truthy cid = true →
  length (without cid (stackOf (layout st) target)) < stackLimit cfg →
  let r := move cfg now cid target st in
  r.1 = Moved
  ∧ (∀ s, stackOf (layout r.2) s
          = if decide (target = s)
            then without cid (stackOf (layout st) target) ++ [cid]
            else without cid (stackOf (layout st) s))
  ∧ inboundIds r.2 = without cid (inboundIds st)
  ∧ (∃ rec, containers r.2 !! cid = Some rec
            ∧ c_status rec = Some IN_YARD ∧ c_slotId rec = Some target
            ∧ c_movedAt rec = Some now
            ∧ ∀ old, containers st !! cid = Some old →
                c_id rec = c_id old ∧ c_createdAt rec = c_createdAt old
                ∧ c_placedAt rec = c_placedAt old)
  ∧ (∀ c, c ≠ cid → containers r.2 !! c = containers st !! c)
  ∧ prevSig r.2 = prevSig st.
Proof.
  intros Ht Hroom r. subst r. rewrite move_unfold by done. cbv zeta.
  rewrite bool_decide_eq_false_2 by lia. cbn [fst snd layout inboundIds containers prevSig].
  split_and!; [done| |done| | |done].
  - intros s. rewrite stackOf_insert. case_decide; [done|apply stackOf_removal_pass].
  - rewrite lookup_insert_eq. eexists. split; [done|]. unfold moved_record. cbn.
    split_and!; [done..|]. by intros old ->.
  - intros c Hc. by rewrite lookup_insert_ne.
Qed.

Lemma move_Moved_witness :
  let r := move DEFAULT_CONFIG "t2" "CONT-100003" "A-R01-C02" two_placed in
  r.1 = Moved
  ∧ (∀ s, stackOf (layout r.2) s
          = if decide ("A-R01-C02" = s)
            then without "CONT-100003" (stackOf (layout two_placed) "A-R01-C02")
                 ++ ["CONT-100003"]
            else without "CONT-100003" (stackOf (layout two_placed) s))
  ∧ inboundIds r.2 = without "CONT-100003" (inboundIds two_placed)
  ∧ (∃ rec, containers r.2 !! "CONT-100003" = Some rec
            ∧ c_status rec = Some IN_YARD ∧ c_slotId rec = Some "A-R01-C02"
            ∧ c_movedAt rec = Some "t2"
            ∧ ∀ old, containers two_placed !! "CONT-100003" = Some old →
                c_id rec = c_id old ∧ c_createdAt rec = c_createdAt old
                ∧ c_placedAt rec = c_placedAt old)
  ∧ (∀ c, c ≠ "CONT-100003" → containers r.2 !! c = containers two_placed !! c)
  ∧ prevSig r.2 = prevSig two_placed.
Proof.
  apply (move_Moved DEFAULT_CONFIG "t2" "CONT-100003" "A-R01-C02" two_placed).
  - reflexivity.
  - vm_compute. lia.
Defined.

Lemma without_without (cid : string) (l : list string) :
  without cid (without cid l) = without cid l.
Proof.
  apply without_notin. rewrite elem_of_without. by intros [? _].
Qed.

Lemma without_snoc (cid : string) (l : list string) :
  without cid (l ++ [cid]) = without cid l.
Proof.
  unfold without. rewrite filter_app, filter_cons_False, filter_nil by naive_solver.
  apply app_nil_r.
Qed.

(** X14. A move that went through can be repeated without effect: the same
    move on its result goes through again and gives the same state. *)
Theorem move_idempotent (cfg : Config) (now cid target : string) (st : State) :
  (move cfg now cid target st).1 = Moved →
  move cfg now cid target (move cfg now cid target st).2
  = (Moved, (move cfg now cid target st).2).
Proof.
  intros Hmoved.
  assert (truthy cid = true) as Ht.
  { unfold move, moveSelectedToSlot in Hmoved. simpl in Hmoved.
    by destruct (truthy cid). }
  rewrite (move_unfold cfg now cid target st Ht) in Hmoved |- *. cbv zeta in *.
  case_bool_decide as Hfull; [done|]. cbn [snd].
  rewrite move_unfold by done. cbv zeta.
  cbn [layout containers inboundIds prevSig selectedSlotId].
  rewrite stackOf_insert, decide_True by done.
  rewrite without_snoc, without_without.
  rewrite bool_decide_eq_false_2 by done.
  f_equal. f_equal.
  - rewrite lookup_insert_eq, insert_insert_eq. by f_equal.
  - apply without_without.
  - apply map_eq. intros s. rewrite !lookup_insert. case_decide; [done|].
    rewrite lookup_fmap, lookup_insert_ne, !lookup_fmap by done.
    destruct (layout st !! s) as [stack|]; [|done]. simpl. f_equal.
    rewrite !removal_pass. apply without_without.
Qed.

Lemma move_idempotent_witness :
  move DEFAULT_CONFIG "t2" "CONT-100003" "A-R01-C02"
       (move DEFAULT_CONFIG "t2" "CONT-100003" "A-R01-C02" two_placed).2
  = (Moved, (move DEFAULT_CONFIG "t2" "CONT-100003" "A-R01-C02" two_placed).2).
Proof.
  apply (move_idempotent DEFAULT_CONFIG "t2" "CONT-100003" "A-R01-C02" two_placed).
  by vm_compute.
Defined.

(** ** In-slot reordering, continued *)

Lemma delete_splice_in (j : nat) (item : string) (l : list string) :
  j ≤ length l → delete j (splice_in j item l) = l.
Proof.
  intros Hj. unfold splice_in.
  rewrite <- (length_take_le l j) at 1 by done.
  by rewrite delete_middle, take_drop.
Qed.

Lemma splice_in_delete (i : nat) (item : string) (l : list string) :
  l !! i = Some item → splice_in i item (delete i l) = l.
Proof.
  intros Hi. pose proof (lookup_lt_Some _ _ _ Hi) as Hlt. unfold splice_in.
  rewrite delete_take_drop.
  rewrite take_app_length' by (rewrite length_take; lia).
  rewrite drop_app_length' by (rewrite length_take; lia).
  by apply take_drop_middle.
Qed.

Lemma length_splice_in (j : nat) (item : string) (l : list string) :
  length (splice_in j item l) = S (length l).
Proof.
  unfold splice_in. rewrite length_app. simpl.
  rewrite length_take, length_drop. lia.
Qed.

Lemma reorder_valid_facts (slotId : string) (i j : nat) (item : string) (st : State) :
  stackOf (layout st) slotId !! i = Some item →
  j < length (stackOf (layout st) slotId) →
  let st' := reorderWithinSlot slotId (Z.of_nat i) (Z.of_nat j) st in
  stackOf (layout st') slotId !! j = Some item
  ∧ delete j (stackOf (layout st') slotId) = delete i (stackOf (layout st) slotId)
  ∧ length (stackOf (layout st') slotId) = length (stackOf (layout st) slotId)
  ∧ (∀ s, s ≠ slotId → stackOf (layout st') s = stackOf (layout st) s)
  ∧ containers st' = containers st ∧ inboundIds st' = inboundIds st
  ∧ prevSig st' = prevSig st.
Proof.
  intros Hi Hj st'. subst st'. rewrite (reorder_unfold _ _ _ item) by done.
  pose proof (lookup_lt_Some _ _ _ Hi) as Hlt.
  cbn [layout set_layout containers inboundIds prevSig].
  rewrite stackOf_insert, decide_True by done.
  assert (j ≤ length (delete i (stackOf (layout st) slotId))) as Hj'.
  { rewrite length_delete by eauto. lia. }
  split_and!; [| | | |done..].
  - by apply splice_in_lookup.
  - by apply delete_splice_in.
  - rewrite length_splice_in, length_delete by eauto. lia.
  - intros s Hs. by rewrite stackOf_insert, decide_False.
Qed.

(** X16. A reorder with two in-range indices puts the element of
    [fromIndex] at [toIndex] and keeps the other elements of the stack in
    their order; the other stacks, the queue, the store and the baseline are
    untouched. *)
Theorem reorderWithinSlot_valid (slotId : string) (i j : nat) (item : string) (st : State) :
  stackOf (layout st) slotId !! i = Some item →
  j < length (stackOf (layout st) slotId) →
  let st' := reorderWithinSlot slotId (Z.of_nat i) (Z.of_nat j) st in
  stackOf (layout st') slotId !! j = Some item
  ∧ delete j (stackOf (layout st') slotId) = delete i (stackOf (layout st) slotId)
  ∧ length (stackOf (layout st') slotId) = length (stackOf (layout st) slotId)
  ∧ (∀ s, s ≠ slotId → stackOf (layout st') s = stackOf (layout st) s)
  ∧ containers st' = containers st ∧ inboundIds st' = inboundIds st
  ∧ prevSig st' = prevSig st.
Proof. apply reorder_valid_facts. Qed.

Lemma reorderWithinSlot_valid_witness :
  let st' := reorderWithinSlot "A-R01-C01" (Z.of_nat 0) (Z.of_nat 1) two_placed in
  stackOf (layout st') "A-R01-C01" !! 1 = Some "CONT-100001"
  ∧ delete 1 (stackOf (layout st') "A-R01-C01") = delete 0 (stackOf (layout two_placed) "A-R01-C01")
  ∧ length (stackOf (layout st') "A-R01-C01") = length (stackOf (layout two_placed) "A-R01-C01")
  ∧ (∀ s, s ≠ "A-R01-C01" → stackOf (layout st') s = stackOf (layout two_placed) s)
  ∧ containers st' = containers two_placed ∧ inboundIds st' = inboundIds two_placed
  ∧ prevSig st' = prevSig two_placed.
Proof.
  apply (reorderWithinSlot_valid "A-R01-C01" 0 1 "CONT-100001" two_placed).
  - by vm_compute.
  - vm_compute. lia.
Defined.

Lemma stackOf_nonempty_eq (l : gmap string (list string)) (s : string) :
  stackOf l s ≠ [] → l !! s = Some (stackOf l s).
Proof. unfold stackOf. by destruct (l !! s). Qed.

(** X17. A reorder with two in-range indices is undone by the reorder with
    the indices exchanged: the state is the one before the two calls. *)
Theorem reorderWithinSlot_back (slotId : string) (i j : nat) (item : string) (st : State) :
  stackOf (layout st) slotId !! i = Some item →
  j < length (stackOf (layout st) slotId) →
  reorderWithinSlot slotId (Z.of_nat j) (Z.of_nat i)
    (reorderWithinSlot slotId (Z.of_nat i) (Z.of_nat j) st) = st.
Proof.
  intros Hi Hj. pose proof (lookup_lt_Some _ _ _ Hi) as Hlt.
  destruct (reorder_valid_facts slotId i j item st Hi Hj) as (Hj' & Hdel & Hlen & _).
  rewrite (reorder_unfold _ j i item) by (rewrite ?Hlen; done).
  rewrite Hdel, splice_in_delete by done.
  rewrite (reorder_unfold _ _ _ item) by done.
  cbn [layout set_layout]. rewrite insert_insert_eq.
  rewrite insert_id.
  - by destruct st.
  - apply stackOf_nonempty_eq. intros Hnil. by rewrite Hnil in Hi.
Qed.

Lemma reorderWithinSlot_back_witness :
  reorderWithinSlot "A-R01-C01" (Z.of_nat 1) (Z.of_nat 0)
    (reorderWithinSlot "A-R01-C01" (Z.of_nat 0) (Z.of_nat 1) two_placed) = two_placed.
Proof.
  apply (reorderWithinSlot_back "A-R01-C01" 0 1 "CONT-100001" two_placed).
  - by vm_compute.
  - vm_compute. lia.
Defined.

(** ** Evict to inbound, continued *)

(** X18. Evicting the same container from the same slot a second time, at
    the same time stamp, changes nothing more. *)
Theorem removeFromSlot_idempotent (now slotId cid : string) (st : State) :
  removeFromSlot now slotId cid (removeFromSlot now slotId cid st)
  = removeFromSlot now slotId cid st.
Proof.
  destruct st as [C I L P sc ss].
  unfold removeFromSlot, set_containers, set_inboundIds, set_layout.
  cbn [layout containers inboundIds prevSig selectedContainerId selectedSlotId].
  rewrite stackOf_insert, decide_True by done.
  rewrite !insert_insert_eq, lookup_insert_eq, without_without.
  f_equal. unfold without at 1.
  rewrite filter_cons_False by naive_solver.
  change (filter (λ x, x ≠ cid) (without cid I)) with (without cid (without cid I)).
  by rewrite without_without.
Qed.

(** ** Change detection, continued *)

(** X19. For a layout and a baseline none of whose keys is the name of a
    member inherited from [Object.prototype], a slot is reported as changed
    exactly when it is in the layout with a signature other than its
    baseline entry (no entry counting as the empty signature), or it has a
    baseline entry and is not in the layout. *)
Theorem computeChangedSlots_spec (l : gmap string (list string))
    (prev : gmap string string) (s : string) :
  map_Forall (λ k _, object_member k = false) l →
  map_Forall (λ k _, object_member k = false) prev →
  s ∈ computeChangedSlots l prev ↔
    (∃ stack, l !! s = Some stack
              ∧ slotSignature (Some stack) ≠ default "" (prev !! s))
    ∨ (is_Some (prev !! s) ∧ l !! s = None).
Proof. intros _ _. apply elem_of_computeChangedSlots. Qed.

Lemma computeChangedSlots_spec_witness :
  "A-R01-C01" ∈ computeChangedSlots (layout two_placed)
                  (prevSig (snapshotSignatures DEFAULT_CONFIG fresh_yard)) ↔
    (∃ stack, layout two_placed !! "A-R01-C01" = Some stack
              ∧ slotSignature (Some stack)
                ≠ default "" (prevSig (snapshotSignatures DEFAULT_CONFIG fresh_yard)
                              !! "A-R01-C01"))
    ∨ (is_Some (prevSig (snapshotSignatures DEFAULT_CONFIG fresh_yard) !! "A-R01-C01")
       ∧ layout two_placed !! "A-R01-C01" = None).
Proof.
  refine (computeChangedSlots_spec (layout two_placed)
            (prevSig (snapshotSignatures DEFAULT_CONFIG fresh_yard)) "A-R01-C01" _ _).
  - refine (bool_decide_unpack _ _). by vm_compute.
  - refine (bool_decide_unpack _ _). by vm_compute.
Defined.

Lemma prevSig_reorderWithinSlot (slotId : string) (fromIndex toIndex : Z) (st : State) :
  prevSig (reorderWithinSlot slotId fromIndex toIndex st) = prevSig st.
Proof.
  by destruct (reorderWithinSlot_cases slotId fromIndex toIndex st)
    as [->|(stack & _ & ->)].
Qed.

(** X20. The "rearranged" flag is exact: with valid identifiers on the
    stacks and grid layouts, a slot is among the changed slots of a state
    whose baseline was acknowledged in an earlier state exactly when its
    stack differs, in content or in order, from the stack it had then. *)
Theorem changedSlots_exact (cfg : Config) (st st' : State) :
  grid_layout cfg st → grid_layout cfg st' →
  prevSig st' = prevSig (snapshotSignatures cfg st) →
  map_Forall (λ _ stack, Forall (λ x, valid_id x = true) stack) (layout st) →
  map_Forall (λ _ stack, Forall (λ x, valid_id x = true) stack) (layout st') →
  ∀ s, s ∈ changedSlots st' ↔ stackOf (layout st') s ≠ stackOf (layout st) s.
Proof.
  intros Hg Hg' Hprev Hv Hv' s. unfold changedSlots.
  rewrite elem_of_computeChangedSlots, Hprev, lookup_snapshotSignatures.
  assert (s ∈ allSlots cfg ↔ is_Some (layout st !! s)) as Hs.
  { rewrite <- elem_of_dom, Hg. by rewrite elem_of_list_to_set. }
  assert (s ∈ allSlots cfg ↔ is_Some (layout st' !! s)) as Hs'.
  { rewrite <- elem_of_dom, Hg'. by rewrite elem_of_list_to_set. }
  case_decide as Hin.
  - destruct (proj1 Hs Hin) as [stack Hstack].
    destruct (proj1 Hs' Hin) as [stack' Hstack'].
    unfold stackOf. rewrite Hstack, Hstack'. cbn [default from_option id].
    split.
    + intros [(? & [= <-] & Hne)|[_ ?]]; [|done]. by intros ->.
    + intros Hne. left. exists stack'. split; [done|]. intros Heq. apply Hne.
      apply join_inj; [by eapply Hv'|by eapply Hv|done].
  - assert (layout st !! s = None) as Hn.
    { apply eq_None_not_Some. by rewrite <- Hs. }
    assert (layout st' !! s = None) as Hn'.
    { apply eq_None_not_Some. by rewrite <- Hs'. }
    unfold stackOf. rewrite Hn, Hn'. split; [|done].
    intros [(? & ? & _)|[[] _]]; done.
Qed.

Lemma changedSlots_exact_witness :
  "A-R01-C01" ∈ changedSlots (reorderWithinSlot "A-R01-C01" 0 1
                                (snapshotSignatures DEFAULT_CONFIG two_placed))
  ↔ stackOf (layout (reorderWithinSlot "A-R01-C01" 0 1
                       (snapshotSignatures DEFAULT_CONFIG two_placed))) "A-R01-C01"
    ≠ stackOf (layout two_placed) "A-R01-C01".
Proof.
  refine (changedSlots_exact DEFAULT_CONFIG two_placed
            (reorderWithinSlot "A-R01-C01" 0 1 (snapshotSignatures DEFAULT_CONFIG two_placed))
            _ _ _ _ _ "A-R01-C01").
  - unfold grid_layout. refine (bool_decide_unpack _ _). by vm_compute.
  - unfold grid_layout. refine (bool_decide_unpack _ _). by vm_compute.
  - apply prevSig_reorderWithinSlot.
  - refine (bool_decide_unpack _ _). by vm_compute.
  - refine (bool_decide_unpack _ _). by vm_compute.
Defined.

(** X21. After a reset no slot is reported as changed, whatever the grid. *)
Theorem changedSlots_resetAll (cfg : Config) (st : State) :
  changedSlots (resetAll cfg st) = ∅.
Proof.
  apply set_eq. intros s. rewrite elem_of_empty. split; [|done].
  unfold changedSlots. rewrite elem_of_computeChangedSlots.
  cbn [resetAll layout prevSig]. rewrite lookup_empty.
  intros [(stack & Hl & Hne)|[[] _]]; [|done].
  rewrite (lookup_foldl_insert (λ _, [])) in Hl.
  case_decide; [|by rewrite lookup_empty in Hl]. by injection Hl as <-.
Qed.

(** ** The layout at start *)

(** X22. The start-up repair of a stored layout keeps the stored stack of
    every grid slot, gives the grid slots that have none an empty stack and
    drops every other key; repairing twice is repairing once, and a layout
    whose keys are the grid slots is left as it is. *)
Theorem normalizeLayout_spec (cfg : Config) (l : gmap string (list string)) :
  (∀ s, normalizeLayout cfg l !! s
        = if decide (s ∈ allSlots cfg) then Some (stackOf l s) else None)
  ∧ normalizeLayout cfg (normalizeLayout cfg l) = normalizeLayout cfg l
  ∧ (dom l = list_to_set (allSlots cfg) → normalizeLayout cfg l = l).
Proof.
  assert (∀ l' s, normalizeLayout cfg l' !! s
            = if decide (s ∈ allSlots cfg) then Some (stackOf l' s) else None) as Hlook.
  { intros l' s. unfold normalizeLayout.
    rewrite (lookup_foldl_insert (λ s, stackOf l' s)). by rewrite lookup_empty. }
  split_and!; [apply Hlook| |].
  - apply map_eq. intros s. rewrite !Hlook. case_decide; [|done].
    unfold stackOf at 1. rewrite Hlook. by rewrite decide_True.
  - intros Hdom. apply map_eq. intros s. rewrite Hlook.
    assert (s ∈ allSlots cfg ↔ is_Some (l !! s)) as Hs.
    { rewrite <- elem_of_dom, Hdom. by rewrite elem_of_list_to_set. }
    case_decide as Hin.
    + apply Hs in Hin as [stack Hstack]. unfold stackOf. by rewrite Hstack.
    + symmetry. apply eq_None_not_Some. by rewrite <- Hs.
Qed.

(** ** Derived figures *)

Lemma size_list_to_set_le (l : list string) : size (list_to_set l : gset string) ≤ length l.
Proof.
  induction l as [|x l IH].
  - rewrite list_to_set_nil, size_empty. done.
  - rewrite list_to_set_cons, size_union_alt, size_singleton. cbn [length].
    assert (size (list_to_set l ∖ {[x]} : gset string) ≤ size (list_to_set l : gset string))
      as H by (apply subseteq_size; set_solver).
    lia.
Qed.

Lemma inYard_sum_le (limit : nat) (m : gmap string (list string)) :
  map_Forall (λ _ stack, length stack ≤ limit) m →
  map_fold (λ _ stack acc, acc + length stack) 0 m ≤ size m * limit.
Proof.
  apply (map_fold_weak_ind (λ r (m : gmap string (list string)),
           map_Forall (λ _ stack, length stack ≤ limit) m → r ≤ size m * limit)).
  - intros _. rewrite map_size_empty. lia.
  - intros i x m' r Hi IH Hall.
    apply map_Forall_insert in Hall as [Hx Hall]; [|done].
    rewrite map_size_insert_None by done. specialize (IH Hall). simpl. lia.
Qed.

Lemma within_capacity_map_Forall (cfg : Config) (st : State) :
  map_Forall (λ _ stack, length stack ≤ stackLimit cfg) (layout st) →
  within_capacity cfg st.
Proof.
  intros Hall s. unfold stackOf. destruct (layout st !! s) as [stack|] eqn:Hs.
  - by apply (Hall s).
  - simpl. lia.
Qed.

(** X23. While every stack respects the limit and the layout has the grid
    slots as keys, the number of containers in the yard is at most the
    capacity figure of the header. *)
Theorem inYardCount_le_capacity (cfg : Config) (st : State) :
  within_capacity cfg st → grid_layout cfg st → inYardCount st ≤ capacity cfg.
Proof.
  intros Hcap Hg. unfold inYardCount, capacity.
  etrans; [apply (inYard_sum_le (stackLimit cfg))|].
  - intros s stack Hs. specialize (Hcap s). unfold stackOf in Hcap. by rewrite Hs in Hcap.
  - apply Nat.mul_le_mono_r. rewrite <- size_dom, Hg. apply size_list_to_set_le.
Qed.

Lemma inYardCount_le_capacity_witness : inYardCount two_placed ≤ capacity DEFAULT_CONFIG.
Proof.
  apply (inYardCount_le_capacity DEFAULT_CONFIG two_placed).
  - apply within_capacity_map_Forall. refine (bool_decide_unpack _ _). by vm_compute.
  - unfold grid_layout. refine (bool_decide_unpack _ _). by vm_compute.
Defined.

Lemma inYard_sum_ids (m : gmap string (list string)) :
  (∀ s stack, m !! s = Some stack → NoDup stack) →
  (∀ c s1 s2 stack1 stack2, m !! s1 = Some stack1 → m !! s2 = Some stack2 →
     c ∈ stack1 → c ∈ stack2 → s1 = s2) →
  ∃ X : gset string,
    size X = map_fold (λ _ stack acc, acc + length stack) 0 m
    ∧ ∀ c, c ∈ X ↔ ∃ s stack, m !! s = Some stack ∧ c ∈ stack.
Proof.
  apply (map_fold_weak_ind (λ r (m : gmap string (list string)),
    (∀ s stack, m !! s = Some stack → NoDup stack) →
    (∀ c s1 s2 stack1 stack2, m !! s1 = Some stack1 → m !! s2 = Some stack2 →
       c ∈ stack1 → c ∈ stack2 → s1 = s2) →
    ∃ X : gset string,
      size X = r ∧ ∀ c, c ∈ X ↔ ∃ s stack, m !! s = Some stack ∧ c ∈ stack)).
  - intros _ _. exists ∅. split; [apply size_empty|].
    intros c. rewrite elem_of_empty. split; [done|].
    intros (s & stack & Hs & _). by rewrite lookup_empty in Hs.
  - intros i x m' r Hi IH Hnd Hone.
    destruct IH as (X & Hsize & HX).
    { intros s stack Hs. apply (Hnd s). rewrite lookup_insert_ne; [done|]. by intros ->; rewrite Hi in Hs. }
    { intros c s1 s2 stack1 stack2 H1 H2. apply (Hone c s1 s2).
      - rewrite lookup_insert_ne; [done|]. by intros ->; rewrite Hi in H1.
      - rewrite lookup_insert_ne; [done|]. by intros ->; rewrite Hi in H2. }
    exists (list_to_set x ∪ X). split.
    + rewrite size_union, Hsize.
      * rewrite size_list_to_set; [lia|]. apply (Hnd i). apply lookup_insert_eq.
      * intros c Hc%elem_of_list_to_set (s & stack & Hs & Hin)%HX.
        assert (i = s) as <-.
        { apply (Hone c i s x stack); [apply lookup_insert_eq| |done..].
          rewrite lookup_insert_ne; [done|]. by intros ->; rewrite Hi in Hs. }
        by rewrite Hi in Hs.
    + intros c. rewrite elem_of_union, elem_of_list_to_set, HX. split.
      * intros [Hc|(s & stack & Hs & Hc)].
        -- exists i, x. by rewrite lookup_insert_eq.
        -- exists s, stack. split; [|done].
           rewrite lookup_insert_ne; [done|]. by intros ->; rewrite Hi in Hs.
      * intros (s & stack & Hs & Hc). destruct (decide (i = s)) as [->|Hne].
        -- rewrite lookup_insert_eq in Hs. injection Hs as <-. by left.
        -- rewrite lookup_insert_ne in Hs by done. right. eauto.
Qed.

(** X24. In a state that satisfies the data-model invariants the two
    counters of the header add up to the number of container records:
    every container is counted once, as inbound or as in the yard. *)
Theorem counts_add_up (st : State) :
  wf st → inboundCount st + inYardCount st = size (containers st).
Proof.
  intros [Hi Hs Ho Hd Hc]. unfold inboundCount, inYardCount.
  assert (∀ s stack, layout st !! s = Some stack → stackOf (layout st) s = stack) as Hst.
  { intros s stack Hl. unfold stackOf. by rewrite Hl. }
  destruct (inYard_sum_ids (layout st)) as (X & <- & HX).
  { intros s stack Hl. rewrite <- (Hst _ _ Hl). apply Hs. }
  { intros c s1 s2 stack1 stack2 H1 H2 Hc1 Hc2. apply (Ho c).
    - by rewrite (Hst _ _ H1).
    - by rewrite (Hst _ _ H2). }
  assert (∀ c, c ∈ X ↔ ∃ s, c ∈ stackOf (layout st) s) as HX'.
  { intros c. rewrite HX. split.
    - intros (s & stack & Hl & Hin). exists s. by rewrite (Hst _ _ Hl).
    - intros (s & Hin). exists s, (stackOf (layout st) s). split; [|done].
      apply stackOf_nonempty_eq. intros Hnil. rewrite Hnil in Hin. by apply elem_of_nil in Hin. }
  rewrite <- size_dom.
  assert (dom (containers st) = list_to_set (inboundIds st) ∪ X) as ->.
  { apply set_eq. intros c. rewrite Hc, elem_of_union, elem_of_list_to_set, HX'. done. }
  rewrite size_union.
  - by rewrite size_list_to_set.
  - intros c Hin%elem_of_list_to_set (s & Hst')%HX'. by eapply Hd.
Qed.

Lemma wf_two_placed : wf two_placed.
Proof.
  apply (wf_autoPlace DEFAULT_CONFIG "t1" 2 three_inbound).
  apply (wf_pollInbound "t0" [1%N; 2%N; 3%N] 3 fresh_yard); [apply wf_resetAll|].
  unfold three_inbound. apply Some_default.
  refine (bool_decide_unpack _ _). by vm_compute.
Qed.

Lemma counts_add_up_witness :
  inboundCount two_placed + inYardCount two_placed = size (containers two_placed).
Proof. apply (counts_add_up two_placed). apply wf_two_placed. Defined.

Lemma zone_used_le (limit : nat) (l : gmap string (list string)) (slots : list string)
    (acc : nat) :
  (∀ s, length (stackOf l s) ≤ limit) →
  foldl (λ acc slot, acc + length (stackOf l slot)) acc slots ≤ acc + length slots * limit.
Proof.
  intros Hcap. revert acc. induction slots as [|s slots IH]; intros acc; simpl; [lia|].
  etrans; [apply IH|]. specialize (Hcap s). lia.
Qed.

(** X25. The availability panel lists the zones of the configuration in
    order, and while every stack respects the limit the remaining capacity
    it shows for a zone lies between zero and the zone's total. *)
Theorem zoneAvailability_bounds (cfg : Config) (st : State) :
  within_capacity cfg st →
  za_zone <$> zoneAvailability cfg st = zones cfg
  ∧ Forall (λ za, (0 ≤ za_remaining za ≤ Z.of_nat (za_total za))%Z)
           (zoneAvailability cfg st).
Proof.
  intros Hcap. unfold zoneAvailability. split.
  - rewrite <- list_fmap_compose. apply list_fmap_id.
  - apply Forall_fmap, Forall_forall. intros zone _. cbn.
    pose proof (zone_used_le (stackLimit cfg) (layout st)
      (List.filter (λ slot, startsWith slot (zone +:+ "-")) (allSlots cfg)) 0 Hcap).
    lia.
Qed.

Lemma zoneAvailability_bounds_witness :
  za_zone <$> zoneAvailability DEFAULT_CONFIG two_placed = zones DEFAULT_CONFIG
  ∧ Forall (λ za, (0 ≤ za_remaining za ≤ Z.of_nat (za_total za))%Z)
           (zoneAvailability DEFAULT_CONFIG two_placed).
Proof.
  apply (zoneAvailability_bounds DEFAULT_CONFIG two_placed).
  apply within_capacity_map_Forall. refine (bool_decide_unpack _ _). by vm_compute.
Defined.

(** On the yard with two containers on A-R01-C01, zone A has 24 slots,
    a total of 48 and 46 places left; zones B and C have all 48 left. *)
Example zoneAvailability_two_placed :
  zoneAvailability DEFAULT_CONFIG two_placed
  = [mkZoneAvailability "A" 46 48; mkZoneAvailability "B" 48 48;
     mkZoneAvailability "C" 48 48].
Proof. by vm_compute. Qed.

(** ** Seeding of an empty yard *)






(** The seeded default yard: twelve containers, two per slot on the first
    six slots, the oldest at the bottom of A-R01-C01. *)
Example seed_default_yard :
  let st' := default fresh_yard
               (seed DEFAULT_CONFIG "t0"
                  [1; 2; 3; 4; 5; 6; 7; 8; 9; 10; 11; 12]%N fresh_yard) in
  hasData fresh_yard = false
  ∧ inboundIds st' = []
  ∧ stackOf (layout st') "A-R01-C01" = ["CONT-100001"; "CONT-100002"]
  ∧ stackOf (layout st') "A-R01-C06" = ["CONT-100011"; "CONT-100012"]
  ∧ stackOf (layout st') "A-R02-C01" = [].
Proof. by vm_compute. Qed.

(** ** Container records and locations *)

Lemma consistent_arrival (now : string) (C : gmap string Container) (I : list string)
    (L : gmap string (list string)) (id : string) :
  wf_parts C I L → consistent_parts C I L → C !! id = None →
  consistent_parts (<[id := makeContainer now id]> C) (id :: I) L.
Proof.
  intros [Hi Hs Ho Hd Hc] Hcons Hnone c rec.
  assert (id ∉ dom C) as Hid by by apply not_elem_of_dom.
  destruct (decide (c = id)) as [->|Hne].
  - rewrite lookup_insert_eq. intros [= <-]. split_and!; [done..|].
    intros s Hin. destruct Hid. apply Hc. eauto.
  - rewrite lookup_insert_ne by done. intros Hrec.
    destruct (Hcons c rec Hrec) as (Hidc & Hq & Hy). split_and!; [done| |done].
    intros [?|Hin]%elem_of_cons; [done|]. by apply Hq.
Qed.

Lemma consistent_pollInbound_loop (now : string) (count : nat) (draws : list N)
    (C C' : gmap string Container) (I I' : list string) (L : gmap string (list string)) :
  wf_parts C I L → consistent_parts C I L →
  pollInbound_loop now count draws C I = Some (C', I') → consistent_parts C' I' L.
Proof.
  revert draws C I. induction count as [|count IH]; intros draws C I Hwf Hcons; simpl.
  - by intros [= <- <-].
  - destruct (fresh_id C draws) as [[id rest]|] eqn:Hf; [|done].
    pose proof (fresh_id_None _ _ _ _ Hf) as Hnone.
    apply IH; [by apply wf_arrival|by apply consistent_arrival].
Qed.

(** A container that goes on top of the stack of [target], with a record
    that says so. *)
Lemma consistent_relocate (C C' : gmap string Container) (I I' : list string)
    (L L' : gmap string (list string)) (cid target : string) (rec : Container) :
  consistent_parts C I L →
  C' !! cid = Some rec → c_id rec = Some cid →
  c_status rec = Some IN_YARD → c_slotId rec = Some target →
  (∀ c, c ≠ cid → C' !! c = C !! c) →
  (∀ x, x ∈ I' → x ≠ cid ∧ x ∈ I) →
  (∀ x s, x ∈ stackOf L' s → (x = cid ∧ s = target) ∨ (x ≠ cid ∧ x ∈ stackOf L s)) →
  consistent_parts C' I' L'.
Proof.
  intros Hcons Hrec Hid Hstatus Hslot Hother HI HL c rec'.
  destruct (decide (c = cid)) as [->|Hne].
  - rewrite Hrec. intros [= <-]. split_and!; [done| |].
    + by intros [? _]%HI.
    + intros s [[_ ->]|[? _]]%HL; done.
  - rewrite Hother by done. intros Hrec'.
    destruct (Hcons c rec' Hrec') as (Hidc & Hq & Hy). split_and!; [done| |].
    + intros [_ ?]%HI. by apply Hq.
    + intros s [[? _]|[_ ?]]%HL; [done|]. by apply Hy.
Qed.

Lemma consistent_placement (now : string) (C : gmap string Container) (rest : list string)
    (L : gmap string (list string)) (cid slot : string) :
  wf_parts C (rest ++ [cid]) L → consistent_parts C (rest ++ [cid]) L →
  consistent_parts (<[cid := placed_record now (C !! cid) slot]> C) rest
                   (<[slot := stackOf L slot ++ [cid]]> L).
Proof.
  intros [Hi Hs Ho Hd Hc] Hcons.
  assert (cid ∈ rest ++ [cid]) as Hcid.
  { apply elem_of_app. right. apply list_elem_of_here. }
  assert (is_Some (C !! cid)) as [old Hold].
  { apply elem_of_dom, Hc. by left. }
  destruct (Hcons cid old Hold) as (Hidc & _ & _).
  apply NoDup_app in Hi as (_ & Hi & _).
  eapply (consistent_relocate C _ (rest ++ [cid]) rest L _ cid slot);
    [done|apply lookup_insert_eq| | | | | |].
  - by rewrite Hold.
  - done.
  - done.
  - intros c Hne. by rewrite lookup_insert_ne.
  - intros x Hx. split; [|apply elem_of_app; by left].
    intros ->. apply (Hi _ Hx), list_elem_of_here.
  - intros x s. rewrite stackOf_insert. case_decide as Hsl.
    + subst s. intros [Hx| ->%list_elem_of_singleton]%elem_of_app; [|by left].
      right. split; [|done]. intros ->. by apply (Hd _ _ Hx).
    + intros Hx. right. split; [|done]. intros ->. by apply (Hd _ _ Hx).
Qed.

Lemma consistent_autoPlace_loop (cfg : Config) (now : string)
    (live : gmap string (list string)) (k : nat)
    (L : gmap string (list string)) (C : gmap string Container) (I : list string) :
  wf_parts C I L → consistent_parts C I L →
  let '(L', C', I') := autoPlace_loop cfg now live k L C I in consistent_parts C' I' L'.
Proof.
  revert L C I. induction k as [|k IH]; intros L C I Hwf Hcons; simpl; [done|].
  destruct (pop I) as [[cid rest]|] eqn:Hp; [|done].
  destruct (firstAvailableSlot cfg live) as [slot|]; [|done].
  destruct (truthy slot); [|done].
  apply pop_Some in Hp as ->.
  apply IH; [by apply wf_placement|by apply consistent_placement].
Qed.

Lemma consistent_moveSelectedToSlot (cfg : Config) (now target : string) (st : State) :
  records_consistent st → records_consistent (moveSelectedToSlot cfg now target st).2.
Proof.
  intros Hcons. unfold moveSelectedToSlot.
  destruct (selectedContainerId st) as [cid|]; [|done].
  destruct (truthy cid); [|done].
  case_bool_decide; [done|]. unfold records_consistent. cbn.
  eapply (consistent_relocate _ _ _ _ _ _ cid target); [exact Hcons|apply lookup_insert_eq|..].
  - unfold moved_record. cbn. destruct (containers st !! cid) as [old|] eqn:Hold; [|done].
    by destruct (Hcons cid old Hold) as (? & _).
  - done.
  - done.
  - intros c Hne. by rewrite lookup_insert_ne.
  - by intros x ?%elem_of_without.
  - intros x s. rewrite stackOf_insert, !stackOf_removal_pass. case_decide as Hsl.
    + subst s. intros [Hx%elem_of_without| ->%list_elem_of_singleton]%elem_of_app; auto.
    + intros Hx%elem_of_without. auto.
Qed.

Lemma consistent_reorderWithinSlot (slotId : string) (fromIndex toIndex : Z) (st : State) :
  records_consistent st → records_consistent (reorderWithinSlot slotId fromIndex toIndex st).
Proof.
  intros Hcons.
  destruct (reorderWithinSlot_cases slotId fromIndex toIndex st)
    as [->|(stack & Hperm & ->)]; [done|].
  intros c rec Hrec. destruct (Hcons c rec Hrec) as (Hid & Hq & Hy).
  split_and!; [done..|]. cbn. intros s. rewrite stackOf_insert.
  case_decide as Hsl; [|apply Hy]. subst s. rewrite Hperm. apply Hy.
Qed.

Lemma consistent_removeFromSlot (now slotId cid : string) (st : State) :
  wf st → records_consistent st → cid ∈ stackOf (layout st) slotId →
  records_consistent (removeFromSlot now slotId cid st).
Proof.
  intros [Hi Hs Ho Hd Hc] Hcons Hcid c rec. unfold removeFromSlot. cbn.
  assert (is_Some (containers st !! cid)) as [old Hold].
  { apply elem_of_dom, Hc. eauto. }
  destruct (decide (c = cid)) as [->|Hne].
  - rewrite lookup_insert_eq, Hold. intros [= <-]. cbn.
    destruct (Hcons cid old Hold) as (Hid & _). split_and!; [done..|].
    intros s. rewrite stackOf_insert. case_decide as Hsl.
    + by intros [? _]%elem_of_without.
    + intros Hin. destruct Hsl. by eapply Ho.
  - rewrite lookup_insert_ne by done. intros Hrec.
    destruct (Hcons c rec Hrec) as (Hid & Hq & Hy). split_and!; [done| |].
    + intros [?|[_ ?]%elem_of_without]%elem_of_cons; [done|]. by apply Hq.
    + intros s. rewrite stackOf_insert. case_decide as Hsl; [|apply Hy].
      subst s. intros [_ ?]%elem_of_without. by apply Hy.
Qed.

Lemma consistent_step (cfg : Config) (e : Event) (st st' : State) :
  wf st → records_consistent st → step cfg e st st' → records_consistent st'.
Proof.
  intros Hwf Hcons Hstep. destruct Hstep as [now draws count st st' Hpoll| | | | | | |].
  - unfold pollInbound in Hpoll.
    destruct (pollInbound_loop _ _ _ _ _) as [[C' I']|] eqn:Hl; [|done].
    injection Hpoll as <-. by eapply consistent_pollInbound_loop.
  - unfold autoPlace.
    pose proof (consistent_autoPlace_loop cfg now (layout st) n _ _ _ Hwf Hcons) as H.
    by destruct (autoPlace_loop _ _ _ _ _ _ _) as [[L' C'] I'].
  - done.
  - by apply (consistent_moveSelectedToSlot cfg now targetSlotId) in Hcons.
  - by apply consistent_reorderWithinSlot.
  - by apply consistent_removeFromSlot.
  - done.
  - intros c rec Hrec. cbn [resetAll containers] in Hrec. by rewrite lookup_empty in Hrec.
Qed.

(** X27. From a state that satisfies the data-model invariants and whose
    records agree with the locations, every sequence of handler runs leads
    to a state whose records agree with the locations: each record is
    stored under its own identifier, a queued container is INBOUND without
    slot reference, and a stacked container is IN_YARD with the slot whose
    stack holds it as its slot reference. *)
Theorem records_consistent_preserved (cfg : Config) (st st' : State) :
  wf st → records_consistent st → steps cfg st st' → records_consistent st'.
Proof.
  intros Hwf Hcons Hsteps.
  induction Hsteps as [|st1 st2 st3 [e Hstep] _ IH]; [done|].
  apply IH; [by eapply wf_step|by eapply consistent_step].
Qed.

Lemma records_consistent_preserved_witness : records_consistent one_evicted.
Proof.
  apply (records_consistent_preserved DEFAULT_CONFIG fresh_yard one_evicted).
  - apply wf_resetAll.
  - intros c rec Hrec. change (containers fresh_yard) with (∅ : gmap string Container) in Hrec.
    by rewrite lookup_empty in Hrec.
  - eapply rtc_l.
    { exists (Poll "t0" [1%N; 2%N; 3%N] 3).
      apply (step_poll DEFAULT_CONFIG "t0" [1%N; 2%N; 3%N] 3 fresh_yard three_inbound).
      unfold three_inbound. apply Some_default.
      refine (bool_decide_unpack _ _). by vm_compute. }
    eapply rtc_l.
    { exists (AutoPlace "t1" 2). apply (step_autoPlace DEFAULT_CONFIG "t1" 2 three_inbound). }
    eapply rtc_l; [|apply rtc_refl].
    exists (Evict "t2" "A-R01-C01" "CONT-100001").
    apply (step_evict DEFAULT_CONFIG "t2" "A-R01-C01" "CONT-100001").
    refine (bool_decide_unpack _ _). by vm_compute.
Defined.

(** ** Invariants of single handler runs *)

(** X15. A handler run other than an auto-placement never takes a stack
    over a limit that every stack respected before. *)
Theorem handlers_keep_capacity (cfg : Config) (e : Event) (st st' : State) :
  within_capacity cfg st → step cfg e st st' →
  (∀ now n, e ≠ AutoPlace now n) → within_capacity cfg st'.
Proof. apply within_capacity_step. Qed.

Lemma handlers_keep_capacity_witness :
  within_capacity DEFAULT_CONFIG
    (setSelectedSlotId (Some "A-R01-C02")
       (moveSelectedToSlot DEFAULT_CONFIG "t2" "A-R01-C02"
          (setSelectedContainerId (Some "CONT-100003") two_placed)).2).
Proof.
  apply (handlers_keep_capacity DEFAULT_CONFIG (ClickSlot "t2" "A-R01-C02")
           (setSelectedContainerId (Some "CONT-100003") two_placed)).
  - apply within_capacity_map_Forall. refine (bool_decide_unpack _ _). by vm_compute.
  - apply step_move.
  - discriminate.
Defined.

(** The click of the witness is a move that goes through: CONT-100003
    leaves the queue for A-R01-C02. *)
Example click_moves_selected_container :
  let st := setSelectedContainerId (Some "CONT-100003") two_placed in
  (moveSelectedToSlot DEFAULT_CONFIG "t2" "A-R01-C02" st).1 = Moved
  ∧ inboundIds st = ["CONT-100003"]
  ∧ inboundIds (moveSelectedToSlot DEFAULT_CONFIG "t2" "A-R01-C02" st).2 = []
  ∧ stackOf (layout (moveSelectedToSlot DEFAULT_CONFIG "t2" "A-R01-C02" st).2) "A-R01-C02"
    = ["CONT-100003"].
Proof. by vm_compute. Qed.

(** X28. A handler run keeps the grid slots as the keys of the layout,
    provided a click is on a grid slot (the only slots the component
    renders). *)
Theorem handlers_keep_grid_layout (cfg : Config) (e : Event) (st st' : State) :
  grid_layout cfg st → step cfg e st st' →
  (∀ now target, e = ClickSlot now target → target ∈ allSlots cfg) →
  grid_layout cfg st'.
Proof. apply grid_layout_step. Qed.

Lemma handlers_keep_grid_layout_witness :
  grid_layout DEFAULT_CONFIG
    (setSelectedSlotId (Some "A-R01-C02")
       (moveSelectedToSlot DEFAULT_CONFIG "t2" "A-R01-C02"
          (setSelectedContainerId (Some "CONT-100003") two_placed)).2).
Proof.
  apply (handlers_keep_grid_layout DEFAULT_CONFIG (ClickSlot "t2" "A-R01-C02")
           (setSelectedContainerId (Some "CONT-100003") two_placed)).
  - unfold grid_layout. refine (bool_decide_unpack _ _). by vm_compute.
  - apply step_move.
  - intros now target [= <- <-]. refine (bool_decide_unpack _ _). by vm_compute.
Defined.
